(** * pacopy: Newton corrector and natural parameter continuation

    A shallow embedding of [pycont/newton.py] and [src/pacopy/natural.py].

    Python floats are modelled as exact rationals [Q]; [float("inf")] as
    [None] in an [option].  numpy arrays are an abstract type [vec] with
    the three operations the sources use ([+], unary [-], [* scalar]).
    Exceptions are an explicit [outcome]; unbounded [while] loops run on
    fuel and report [OutOfFuel].

    The rational model follows the branches, the clamp to a milestone, the
    step index and the callback log of the code.  It does not show
    rounding, underflow, overflow or NaN: [(lmbda + h) - h] is [lmbda] in
    it, and a halved step is never zero.  Where a property of the step
    size depends on this, the lines concerned are also given on IEEE 754
    doubles ([Binary64]). *)

From Stdlib Require Import QArith Qminmax Qabs Lqa Lia List Sorted.
From Stdlib Require Import Floats.
From stdpp Require Import gmap.
Import ListNotations.

Local Open Scope Q_scope.

(** ** Python values and exceptions *)

Inductive exn : Type :=
| NewtonConvergenceError (steps : nat)   (* "didn't converge after {k} steps" *)
| StopIteration
| ZeroDivisionError.

Inductive outcome (A : Type) : Type :=
| Return (a : A)
| Raise (e : exn).
Arguments Return {A} a.
Arguments Raise {A} e.

(** What a call hands back: a bare array, or a tuple [(array, int)]. *)
Inductive pyval (vec : Type) : Type :=
| PyArray (a : vec)
| PyTuple (a : vec) (n : nat).
Arguments PyArray {vec} a.
Arguments PyTuple {vec} a n.

(** numpy array arithmetic used by the sources. *)
Class VecOps (vec : Type) : Type := {
  vadd : vec -> vec -> vec;      (* u + du *)
  vneg : vec -> vec;             (* -fu *)
  vscale : vec -> Q -> vec       (* du_dlmbda * lambda_stepsize *)
}.

(** One-component arrays: the instance the concrete runs below use. *)
#[export] Instance Q_VecOps : VecOps Q := {
  vadd := Qplus;
  vneg := Qopp;
  vscale := Qmult
}.

(** ** [pycont/newton.py] *)

Module Newton.
Section Newton.
Context {vec : Type} `{VecOps vec}.
(** [numpy.linalg.norm] *)
Variable norm : vec -> Q.
Variable f : vec -> vec.
Variable jacobian_solver : vec -> vec -> vec.
Variable tol : Q.

(** The local variables of [newton] that the loop reads and writes. *)
Record locals : Type := {
  u : vec;
  fu : vec;
  nrm : Q;
  k : nat;
  is_converged : bool
}.

(** Lines 24-28: one correction. *)
Definition correct (s : locals) : locals :=
  let du := jacobian_solver (u s) (vneg (fu s)) in
  let u' := vadd (u s) du in
  let fu' := f u' in
  {| u := u'; fu := fu'; nrm := norm fu'; k := S (k s);
     is_converged := is_converged s |}.

(** Lines 20-28: [while k < max_iter].  [budget] is [max_iter - k], the
    number of times the loop test can still succeed. *)
Fixpoint while_loop (budget : nat) (s : locals) : locals :=
  match budget with
  | O => s
  | S budget' =>
      if Qlt_le_dec (nrm s) tol
      then {| u := u s; fu := fu s; nrm := nrm s; k := k s;
              is_converged := true |}
      else while_loop budget' (correct s)
  end.

(** Lines 11-19. *)
Definition entry (u0 : vec) : locals :=
  let u := u0 in                       (* u0.copy() *)
  let fu := f u in
  {| u := u; fu := fu; nrm := norm fu; k := 0; is_converged := false |}.

Definition run (u0 : vec) (max_iter : nat) : locals :=
  while_loop max_iter (entry u0).

(** Lines 32-37. *)
Definition newton (u0 : vec) (max_iter : nat) : outcome (pyval vec) :=
  let s := run u0 max_iter in
  if negb (is_converged s)
  then Raise (NewtonConvergenceError (k s))
  else Return (PyArray (u s)).

(** [s] after [i] more corrections. *)
Definition after (i : nat) (s : locals) : locals := Nat.iter i correct s.

(** The iterates [u0, u1, ...] of the correction, with their residuals. *)
Definition iterate (i : nat) (u0 : vec) : locals := after i (entry u0).

End Newton.
End Newton.

(** ** [pycont/newton.py] with the arrays in a store

    [u = u0.copy()] allocates, [u += du] writes through the reference [u].
    The residual and the linear solve are functions of the contents of
    their arguments and hand back arrays of their own, which [newton] only
    reads; so only [u0] and its copy need a place in the store. *)

Module NewtonHeap.
Section Heap.
Context {vec : Type} `{VecOps vec}.
Variable norm : vec -> Q.
Variable f : vec -> vec.
Variable jacobian_solver : vec -> vec -> vec.
Variable tol : Q.

(** [r.copy()]: a new array with the contents of [r]. *)
Definition copy (r : positive) (h : gmap positive vec)
  : option (positive * gmap positive vec) :=
  a ← h !! r;
  let r' := fresh (dom h) in
  Some (r', <[r' := a]> h).

(** [r += du]: in place. *)
Definition iadd (r : positive) (du : vec) (h : gmap positive vec)
  : option (gmap positive vec) :=
  a ← h !! r;
  Some (<[r := vadd a du]> h).

(** Lines 20-28, with [u] a reference.  The result is the final [k],
    [is_converged] and store; [None] is a read of a dangling reference. *)
Fixpoint while_loop (budget : nat) (u : positive) (fu : vec) (nrm : Q)
                    (k : nat) (h : gmap positive vec)
  : option (nat * bool * gmap positive vec) :=
  match budget with
  | O => Some (k, false, h)
  | S budget' =>
      if Qlt_le_dec nrm tol then Some (k, true, h)
      else
        a ← h !! u;
        let du := jacobian_solver a (vneg fu) in
        h' ← iadd u du h;
        a' ← h' !! u;
        let fu' := f a' in
        while_loop budget' u fu' (norm fu') (S k) h'
  end.

(** Lines 10-37: the outcome (a reference to the result array, or the
    exception) and the store the call leaves behind. *)
Definition newton (u0 : positive) (max_iter : nat) (h : gmap positive vec)
  : option (outcome positive * gmap positive vec) :=
  '(u, h1) ← copy u0 h;
  a ← h1 !! u;
  let fu := f a in
  '(k, is_converged, h2) ← while_loop max_iter u fu (norm fu) 0 h1;
  Some (if negb is_converged
        then Raise (NewtonConvergenceError k)
        else Return u,
        h2).

End Heap.
End NewtonHeap.

(** ** The solver [natural.py] imports

    [natural.py] takes [newton] from its own package, [pacopy/newton.py],
    which is not among the sources embedded here: it is called with a norm
    as third argument and its result is unpacked as a pair, unlike the
    [newton] of [pycont/newton.py]. *)

Module Pacopy.
Section Solver.
Context {vec : Type} `{VecOps vec}.
Variable residual_fn : vec -> vec.
Variable linear_solve_fn : vec -> vec -> vec.
Variable norm_fn : vec -> Q.

(** Modelled from the spec: [pacopy/newton.py] (the [newton] that
    [natural.py] imports) is missing.  Section 4.1: evaluate the residual;
    while the norm is not below [tol] and the iteration count is below
    [max_iter], correct [u] by [linear_solve_fn u (- residual_fn u)] and
    count one iteration; convergence is checked before each correction.
    Success returns the vector and the number of corrections performed;
    failure, when [max_iter] is exhausted without the norm falling below
    [tol], carries the count reached. *)
Fixpoint solve (u : vec) (tol : Q) (budget : nat) (steps_taken : nat)
  : outcome (vec * nat) :=
  if Qlt_le_dec (norm_fn (residual_fn u)) tol
  then Return (u, steps_taken)
  else match budget with
       | O => Raise (NewtonConvergenceError steps_taken)
       | S budget' =>
           solve (vadd u (linear_solve_fn u (vneg (residual_fn u))))
                 tol budget' (S steps_taken)
       end.

(** Modelled from the spec: the contract
    [solve(residual_fn, linear_solve_fn, norm_fn, u0, tol, max_iter)
     -> (u*, steps_taken)] of section 4.1, for the missing
    [pacopy/newton.py]. *)
Definition newton (u0 : vec) (tol : Q) (max_iter : nat)
  : outcome (vec * nat) :=
  solve u0 tol max_iter 0.
End Solver.
End Pacopy.

(** ** [src/pacopy/natural.py] *)

Module Natural.

(** The [problem] argument: the four methods the driver calls. *)
Record Problem (vec : Type) : Type := {
  f : vec -> Q -> vec;
  jacobian_solver : vec -> Q -> vec -> vec;
  norm2_r : vec -> Q;
  df_dlmbda : vec -> Q -> vec
}.
Arguments f {vec} _ _ _.
Arguments jacobian_solver {vec} _ _ _ _.
Arguments norm2_r {vec} _ _.
Arguments df_dlmbda {vec} _ _ _.

(** The keyword arguments ([verbose] only prints and is left out).  The
    iteration budget is a count; the arithmetic of the growth rule on it is
    done on integers, as in the source. *)
Record Options : Type := {
  lambda_stepsize0 : Q;
  lambda_stepsize_max : option Q;           (* None is float("inf") *)
  lambda_stepsize_aggressiveness : Q;
  max_newton_steps : nat;
  newton_tol : Q;
  max_steps : option nat;                   (* None is float("inf") *)
  use_first_order_predictor : bool;
  milestones : option (list Q)              (* None is None *)
}.

(** The defaults of the signature. *)
Definition defaults : Options := {|
  lambda_stepsize0 := 1 # 10;
  lambda_stepsize_max := None;
  lambda_stepsize_aggressiveness := 2;
  max_newton_steps := 5;
  newton_tol := 1 # 1000000000000;
  max_steps := None;
  use_first_order_predictor := true;
  milestones := None
|}.

(** [min(lambda_stepsize, lambda_stepsize_max)] *)
Definition min_max (x : Q) (bound : option Q) : Q :=
  match bound with
  | None => x
  | Some b => Qmin x b
  end.

(** [k > max_steps] *)
Definition exceeds (k : nat) (bound : option nat) : bool :=
  match bound with
  | None => false
  | Some m => (m <? k)%nat
  end.

(** [max_newton_steps - newton_steps] and [max_newton_steps - 1] are
    integer subtractions, [/] is true division. *)
Definition slack (max_newton_steps newton_steps : nat) : Q :=
  inject_Z (Z.of_nat max_newton_steps - Z.of_nat newton_steps)
  / inject_Z (Z.of_nat max_newton_steps - 1).

(** Lines 118-122: the factor [lambda_stepsize] is multiplied by. *)
Definition growth (a : Q) (max_newton_steps newton_steps : nat) : Q :=
  1 + a * (slack max_newton_steps newton_steps) ^ 2.

Section Driver.
Context {vec : Type} `{VecOps vec}.

(** The imported [newton(f, jacobian_solver, norm2, u0, tol=, max_iter=)]. *)
Variable newton :
  (vec -> vec) -> (vec -> vec -> vec) -> (vec -> Q) ->
  vec -> Q -> nat -> outcome (vec * nat).

Variable problem : Problem vec.
Variable opts : Options.

(** One [callback(k, lmbda, u)] invocation. *)
Record call : Type := { step_index : nat; at_lmbda : Q; at_u : vec }.

(** The variables alive at the head of the [while True] loop.
    [pending] is [Some (milestone, rest of the iterator)] when
    [milestones is not None]; [calls] lists the callback invocations so
    far, oldest first. *)
Record state : Type := {
  k : nat;
  lmbda : Q;
  u : vec;
  lambda_stepsize : Q;
  pending : option (Q * list Q);
  calls : list call
}.

Inductive control : Type :=
| Continue (s : state)
| Break (s : state)
| Throw (e : exn) (calls : list call).

(** Lines 54-61 and 95-102: the corrector at parameter value [l]. *)
Definition corrector (l : Q) (u0 : vec) : outcome (vec * nat) :=
  newton (fun v => f problem v l)
         (fun v rhs => jacobian_solver problem v l rhs)
         (norm2_r problem)
         u0 (newton_tol opts) (max_newton_steps opts).

(** Lines 48-71. *)
Definition start (u0 : vec) (lambda0 : Q) : control :=
  match corrector lambda0 u0 with
  | Raise e => Throw e []
  | Return (u1, _) =>
      let log := [ {| step_index := 0; at_lmbda := lambda0; at_u := u1 |} ] in
      match milestones opts with
      | None =>
          Continue {| k := 1; lmbda := lambda0; u := u1;
                      lambda_stepsize := lambda_stepsize0 opts;
                      pending := None; calls := log |}
      | Some [] => Throw StopIteration log          (* next(milestones) *)
      | Some (m :: rest) =>
          Continue {| k := 1; lmbda := lambda0; u := u1;
                      lambda_stepsize := lambda_stepsize0 opts;
                      pending := Some (m, rest); calls := log |}
      end
  end.

(** Lines 84-86: the trial parameter value.  [milestones] is an iterator
    object by then, which is truthy, so [if milestones:] tests
    [milestones is not None]. *)
Definition predictor (s : state) : Q :=
  let l := lmbda s + lambda_stepsize s in
  match pending s with
  | Some (milestone, _) => Qmin l milestone
  | None => l
  end.

(** Lines 87-91: the initial guess for the corrector. *)
Definition guess (s : state) (l : Q) : vec :=
  if use_first_order_predictor opts
  then
    let du_dlmbda :=
      jacobian_solver problem (u s) l (vneg (df_dlmbda problem (u s) l)) in
    vadd (u s) (vscale du_dlmbda (lambda_stepsize s))
  else u s.

(** Lines 118-123, after [callback] and [k += 1]. *)
Definition grow (s : state) (l : Q) (u1 : vec) (newton_steps : nat)
                (log : list call) : control :=
  if (Z.of_nat (max_newton_steps opts) - 1 =? 0)%Z
  then Throw ZeroDivisionError log
  else
    let stepsize :=
      lambda_stepsize s
      * growth (lambda_stepsize_aggressiveness opts)
               (max_newton_steps opts) newton_steps in
    Continue {| k := S (k s); lmbda := l; u := u1;
                lambda_stepsize := min_max stepsize (lambda_stepsize_max opts);
                pending := pending s; calls := log |}.

(** Lines 73-123: one pass through the body of [while True]. *)
Definition body (s : state) : control :=
  if exceeds (k s) (max_steps opts) then Break s
  else
    let l := predictor s in
    match corrector l (guess s l) with
    | Raise (NewtonConvergenceError _) =>
        Continue {| k := k s; lmbda := l - lambda_stepsize s; u := u s;
                    lambda_stepsize := lambda_stepsize s / 2;
                    pending := pending s; calls := calls s |}
    | Raise e => Throw e (calls s)
    | Return (u1, newton_steps) =>
        let log :=
          calls s ++ [ {| step_index := k s; at_lmbda := l; at_u := u1 |} ] in
        match pending s with
        | Some (milestone, rest) =>
            if Qeq_bool l milestone
            then match rest with
                 | [] => Break {| k := S (k s); lmbda := l; u := u1;
                                  lambda_stepsize := lambda_stepsize s;
                                  pending := pending s; calls := log |}
                 | m :: rest' =>
                     Continue {| k := S (k s); lmbda := l; u := u1;
                                 lambda_stepsize := lambda_stepsize s;
                                 pending := Some (m, rest'); calls := log |}
                 end
            else grow s l u1 newton_steps log
        | None => grow s l u1 newton_steps log
        end
    end.

Inductive status : Type :=
| Returned
| Raised (e : exn)
| OutOfFuel.

Fixpoint loop (fuel : nat) (s : state) : status * list call :=
  match fuel with
  | O => (OutOfFuel, calls s)
  | S fuel' =>
      match body s with
      | Continue s' => loop fuel' s'
      | Break s' => (Returned, calls s')
      | Throw e log => (Raised e, log)
      end
  end.

(** The driver: how the call ends and the callback invocations it made. *)
Definition natural (fuel : nat) (u0 : vec) (lambda0 : Q)
  : status * list call :=
  match start u0 lambda0 with
  | Continue s => loop fuel s
  | Break s => (Returned, calls s)
  | Throw e log => (Raised e, log)
  end.

(** In [log], no call has a parameter value above [m] unless an earlier
    call has the value [m] itself. *)
Definition not_skipped (m : Q) (log : list call) : Prop :=
  forall before c later,
    log = before ++ c :: later ->
    m < at_lmbda c ->
    exists c', In c' before /\ at_lmbda c' == m.

(** The parameter values of the calls of [log] never decrease. *)
Definition nondecreasing (log : list call) : Prop :=
  forall before c later c',
    log = before ++ c :: later ->
    In c' later ->
    at_lmbda c <= at_lmbda c'.

(** The loop invariant of a run without milestones: no trial is clamped,
    the step size is positive and within [lambda_stepsize_max], and [lmbda]
    is at or above every value the callback has received, which never
    decreased. *)
Definition forward (s : state) : Prop :=
  pending s = None
  /\ (0 < lambda_stepsize s
      /\ forall b, lambda_stepsize_max opts = Some b -> lambda_stepsize s <= b)
  /\ (forall c, In c (calls s) -> at_lmbda c <= lmbda s)
  /\ nondecreasing (calls s).

(** The vector of the call has a residual norm below [newton_tol] at the
    parameter value of the call. *)
Definition is_root (c : call) : Prop :=
  norm2_r problem (f problem (at_u c) (at_lmbda c)) < newton_tol opts.

(** The loop invariant of the milestones [ms]: they split into those
    passed, the pending one and the rest of the iterator; every call so
    far is below the pending milestone; each milestone passed was hit,
    and not skipped before. *)
Definition on_track (ms : list Q) (s : state) : Prop :=
  exists passed m rest,
    ms = passed ++ m :: rest
    /\ pending s = Some (m, rest)
    /\ (forall c, In c (calls s) -> at_lmbda c < m)
    /\ (forall d, In d passed ->
          not_skipped d (calls s)
          /\ exists c, In c (calls s) /\ at_lmbda c == d).

(** [reaches s s']: the loop, entered in [s], comes back to its head in
    [s']. *)
Inductive reaches (s : state) : state -> Prop :=
| reaches_here : reaches s s
| reaches_next s' s'' :
    reaches s s' -> body s' = Continue s'' -> reaches s s''.

(** The states in which a run of the driver stands at the loop head. *)
Definition loop_head (u0 : vec) (lambda0 : Q) (s : state) : Prop :=
  exists s0, start u0 lambda0 = Continue s0 /\ reaches s0 s.

(** The loop head after [n] passes, when the loop is still running. *)
Fixpoint head_after (n : nat) (s : state) : option state :=
  match n with
  | O => Some s
  | S n' =>
      match head_after n' s with
      | Some s' => match body s' with Continue s'' => Some s'' | _ => None end
      | None => None
      end
  end.

End Driver.
End Natural.

(** ** Two lines of [natural.py] on IEEE 754 doubles *)

Module Binary64.

(** Line 107: [lambda_stepsize /= 2]. *)
Definition halve (lambda_stepsize : float) : float :=
  (lambda_stepsize / 2)%float.

(** The step size after [n] rejected trials in a row. *)
Definition rejections (n : nat) (lambda_stepsize : float) : float :=
  Nat.iter n halve lambda_stepsize.

(** The float of a Python int (exact below [2^53]). *)
Definition of_int (z : Z) : float :=
  match z with
  | Zneg p => (- PrimFloat.of_uint63 (Uint63.of_Z (Zpos p)))%float
  | _ => PrimFloat.of_uint63 (Uint63.of_Z z)
  end.

(** Lines 118-122: the factor [lambda_stepsize] is multiplied by.  The
    true division of the two ints is the division of their floats (exact
    conversions, one rounding), and [x ** 2] is taken as [x * x]. *)
Definition growth (a : float) (max_newton_steps newton_steps : nat) : float :=
  let slack :=
    (of_int (Z.of_nat max_newton_steps - Z.of_nat newton_steps)
     / of_int (Z.of_nat max_newton_steps - 1))%float in
  (1 + a * (slack * slack))%float.

End Binary64.

(** ** Concrete problems on one-component arrays *)

Module Examples.
Import Natural.

(** [F(u) = u] with the exact linear solve ([J = 1]). *)
Definition identity_residual (u : Q) : Q := u.
Definition exact_solve (u rhs : Q) : Q := rhs.

(** [F(u, lmbda) = u - lmbda] with the exact linear solve. *)
Definition linear_problem : Problem Q := {|
  f := fun u l => u - l;
  jacobian_solver := fun u l rhs => rhs;
  norm2_r := fun r => r * r;
  df_dlmbda := fun u l => - (1)
|}.

(** As [linear_problem], but the residual has no root at [lmbda = 1/2]. *)
Definition gap_problem : Problem Q := {|
  f := fun u l => if Qeq_bool l (1 # 2) then 1 else u - l;
  jacobian_solver := fun u l rhs => rhs;
  norm2_r := fun r => r * r;
  df_dlmbda := fun u l => - (1)
|}.

(** The defaults, with the zero-order predictor. *)
Definition zero_order : Options := {|
  lambda_stepsize0 := lambda_stepsize0 defaults;
  lambda_stepsize_max := lambda_stepsize_max defaults;
  lambda_stepsize_aggressiveness := lambda_stepsize_aggressiveness defaults;
  max_newton_steps := max_newton_steps defaults;
  newton_tol := newton_tol defaults;
  max_steps := max_steps defaults;
  use_first_order_predictor := false;
  milestones := milestones defaults
|}.

Definition with_stepsize0 (d : Q) (o : Options) : Options := {|
  lambda_stepsize0 := d;
  lambda_stepsize_max := lambda_stepsize_max o;
  lambda_stepsize_aggressiveness := lambda_stepsize_aggressiveness o;
  max_newton_steps := max_newton_steps o;
  newton_tol := newton_tol o;
  max_steps := max_steps o;
  use_first_order_predictor := use_first_order_predictor o;
  milestones := milestones o
|}.

Definition with_stepsize_max (b : Q) (o : Options) : Options := {|
  lambda_stepsize0 := lambda_stepsize0 o;
  lambda_stepsize_max := Some b;
  lambda_stepsize_aggressiveness := lambda_stepsize_aggressiveness o;
  max_newton_steps := max_newton_steps o;
  newton_tol := newton_tol o;
  max_steps := max_steps o;
  use_first_order_predictor := use_first_order_predictor o;
  milestones := milestones o
|}.

Definition with_aggressiveness (a : Q) (o : Options) : Options := {|
  lambda_stepsize0 := lambda_stepsize0 o;
  lambda_stepsize_max := lambda_stepsize_max o;
  lambda_stepsize_aggressiveness := a;
  max_newton_steps := max_newton_steps o;
  newton_tol := newton_tol o;
  max_steps := max_steps o;
  use_first_order_predictor := use_first_order_predictor o;
  milestones := milestones o
|}.

Definition with_milestones (ms : list Q) (o : Options) : Options := {|
  lambda_stepsize0 := lambda_stepsize0 o;
  lambda_stepsize_max := lambda_stepsize_max o;
  lambda_stepsize_aggressiveness := lambda_stepsize_aggressiveness o;
  max_newton_steps := max_newton_steps o;
  newton_tol := newton_tol o;
  max_steps := max_steps o;
  use_first_order_predictor := use_first_order_predictor o;
  milestones := Some ms
|}.

(** The driver with the solver of [Pacopy]. *)
Definition natural (problem : Problem Q) (opts : Options) :=
  Natural.natural Pacopy.newton problem opts.
Definition start (problem : Problem Q) (opts : Options) :=
  Natural.start Pacopy.newton problem opts.
Definition body (problem : Problem Q) (opts : Options) :=
  Natural.body Pacopy.newton problem opts.
Definition corrector (problem : Problem Q) (opts : Options) :=
  Natural.corrector Pacopy.newton problem opts.
Definition loop_head (problem : Problem Q) (opts : Options) :=
  Natural.loop_head Pacopy.newton problem opts.

(** The loop head of a run after [n] passes. *)
Definition head_of (problem : Problem Q) (opts : Options)
                   (u0 lambda0 : Q) (n : nat) : option state :=
  match start problem opts u0 lambda0 with
  | Continue s0 => Natural.head_after Pacopy.newton problem opts n s0
  | _ => None
  end.

Definition with_max_newton_steps (n : nat) (o : Options) : Options := {|
  lambda_stepsize0 := lambda_stepsize0 o;
  lambda_stepsize_max := lambda_stepsize_max o;
  lambda_stepsize_aggressiveness := lambda_stepsize_aggressiveness o;
  max_newton_steps := n;
  newton_tol := newton_tol o;
  max_steps := max_steps o;
  use_first_order_predictor := use_first_order_predictor o;
  milestones := milestones o
|}.

Definition with_max_steps (n : nat) (o : Options) : Options := {|
  lambda_stepsize0 := lambda_stepsize0 o;
  lambda_stepsize_max := lambda_stepsize_max o;
  lambda_stepsize_aggressiveness := lambda_stepsize_aggressiveness o;
  max_newton_steps := max_newton_steps o;
  newton_tol := newton_tol o;
  max_steps := Some n;
  use_first_order_predictor := use_first_order_predictor o;
  milestones := milestones o
|}.

(** Initial step 2/5 towards the milestone 1/2. *)
Definition towards_gap : Options :=
  with_milestones [1 # 2] (with_stepsize0 (2 # 5) zero_order).

(** Milestones [0.5, 1.0] and initial step 0.3. *)
Definition two_milestones : Options :=
  with_milestones [1 # 2; 1] (with_stepsize0 (3 # 10) zero_order).

End Examples.

(** * Properties *)

(** ** The Newton solver of [pycont/newton.py] *)

Module NewtonFacts.
Import Newton.

Section Facts.
Context {vec : Type} `{VecOps vec}.
Variable norm : vec -> Q.
Variable f : vec -> vec.
Variable jacobian_solver : vec -> vec -> vec.
Variable tol : Q.

Local Abbreviation correct := (correct norm f jacobian_solver).
Local Abbreviation after := (after norm f jacobian_solver).
Local Abbreviation while_loop := (while_loop norm f jacobian_solver tol).
Local Abbreviation iterate := (iterate norm f jacobian_solver).
Local Abbreviation run := (run norm f jacobian_solver tol).
Local Abbreviation newton := (newton norm f jacobian_solver tol).

Lemma after_S i s : after (S i) s = after i (correct s).
Proof.
  unfold Newton.after. induction i as [|i IH]; [reflexivity|].
  simpl in *. now rewrite IH.
Qed.

Lemma iterate_after i u0 :
  iterate i u0 = after i (entry norm f u0).
Proof. reflexivity. Qed.

Lemma k_after i s : k (after i s) = (k s + i)%nat.
Proof.
  induction i as [|i IH]; [simpl; lia|].
  change (after (S i) s) with (correct (after i s)).
  simpl. rewrite IH. lia.
Qed.

Lemma is_converged_after i s : is_converged (after i s) = is_converged s.
Proof.
  induction i as [|i IH]; [reflexivity|].
  change (after (S i) s) with (correct (after i s)). exact IH.
Qed.

(** The loop stops at the first of the first [budget] iterates whose
    residual norm is below [tol], and reports convergence there. *)
Lemma while_loop_converges budget : forall s i,
  (i < budget)%nat ->
  nrm (after i s) < tol ->
  (forall j, (j < i)%nat -> tol <= nrm (after j s)) ->
  while_loop budget s =
    {| u := u (after i s); fu := fu (after i s); nrm := nrm (after i s);
       k := k (after i s); is_converged := true |}.
Proof.
  induction budget as [|b IH]; intros s i Hi Hlt Hbefore; [lia|].
  simpl. destruct (Qlt_le_dec (nrm s) tol) as [Hs|Hs].
  - destruct i as [|i]; [reflexivity|].
    specialize (Hbefore 0%nat ltac:(lia)). simpl in Hbefore.
    exfalso. apply (Qlt_irrefl tol). eapply Qle_lt_trans; eassumption.
  - destruct i as [|i].
    + simpl in Hlt. exfalso. apply (Qlt_irrefl tol).
      eapply Qle_lt_trans; eassumption.
    + rewrite after_S in *. apply IH; [lia | assumption |].
      intros j Hj. rewrite <- after_S. apply Hbefore. lia.
Qed.

(** If none of the first [budget] iterates is below [tol], the loop
    performs all [budget] corrections and leaves [is_converged] as it
    was. *)
Lemma while_loop_exhausts budget : forall s,
  (forall j, (j < budget)%nat -> tol <= nrm (after j s)) ->
  while_loop budget s = after budget s.
Proof.
  induction budget as [|b IH]; intros s Hall; [reflexivity|].
  simpl while_loop. destruct (Qlt_le_dec (nrm s) tol) as [Hs|Hs].
  - specialize (Hall 0%nat ltac:(lia)). simpl in Hall.
    exfalso. apply (Qlt_irrefl tol). eapply Qle_lt_trans; eassumption.
  - rewrite after_S. apply IH. intros j Hj.
    rewrite <- after_S. apply Hall. lia.
Qed.

(** Either some iterate among the first [budget] is the first one below
    [tol], or none is. *)
Lemma first_below_or_none budget : forall s,
  (exists i, (i < budget)%nat /\ nrm (after i s) < tol /\
             forall j, (j < i)%nat -> tol <= nrm (after j s))
  \/ (forall j, (j < budget)%nat -> tol <= nrm (after j s)).
Proof.
  induction budget as [|b IH]; intros s; [right; intros; lia|].
  destruct (IH s) as [(i & Hi & Hlt & Hb)|Hnone].
  - left. exists i. repeat split; [lia | assumption | assumption].
  - destruct (Qlt_le_dec (nrm (after b s)) tol) as [Hlt|Hge].
    + left. exists b. repeat split; [lia | assumption | assumption].
    + right. intros j Hj.
      destruct (Nat.eq_dec j b) as [->|Hne]; [assumption|].
      apply Hnone. lia.
Qed.

(** The solver raises exactly when none of the iterates [0 .. max_iter-1]
    has a residual norm below [tol]; the iterate reached by the last
    permitted correction is not looked at.  The count in the exception is
    [max_iter]. *)
Lemma newton_raises_iff u0 max_iter e :
  newton u0 max_iter = Raise e <->
  e = NewtonConvergenceError max_iter /\
  forall j, (j < max_iter)%nat -> tol <= nrm (iterate j u0).
Proof.
  unfold Newton.newton, Newton.run.
  destruct (first_below_or_none max_iter (entry norm f u0))
    as [(i & Hi & Hlt & Hb)|Hnone].
  - rewrite (while_loop_converges max_iter _ i Hi Hlt Hb). simpl.
    split; [discriminate|]. intros [_ Hall].
    specialize (Hall i Hi). rewrite iterate_after in Hall.
    exfalso. apply (Qlt_irrefl tol). eapply Qle_lt_trans; eassumption.
  - rewrite (while_loop_exhausts max_iter _ Hnone).
    rewrite is_converged_after, k_after. simpl.
    split.
    + intros [= <-]. split; [reflexivity|].
      intros j Hj. rewrite iterate_after. now apply Hnone.
    + intros [-> _]. reflexivity.
Qed.

(** On success the solver hands back the bare array of the first iterate
    below [tol]; the index of that iterate is the number of corrections
    performed, and it stays inside the function. *)
Lemma newton_returns_iff u0 max_iter v :
  newton u0 max_iter = Return v <->
  exists i, (i < max_iter)%nat /\ v = PyArray (u (iterate i u0)) /\
            k (run u0 max_iter) = i /\
            nrm (iterate i u0) < tol /\
            forall j, (j < i)%nat -> tol <= nrm (iterate j u0).
Proof.
  unfold Newton.newton, Newton.run.
  destruct (first_below_or_none max_iter (entry norm f u0))
    as [(i & Hi & Hlt & Hb)|Hnone].
  - rewrite (while_loop_converges max_iter _ i Hi Hlt Hb). simpl.
    rewrite k_after. simpl. split.
    + intros [= <-]. exists i. rewrite !iterate_after.
      repeat split; assumption.
    + intros (i' & Hi' & -> & Hk & Hlt' & Hb').
      subst i'. reflexivity.
  - rewrite (while_loop_exhausts max_iter _ Hnone).
    rewrite is_converged_after. simpl. split; [discriminate|].
    intros (i & Hi & _ & _ & Hlt & _). rewrite iterate_after in Hlt.
    specialize (Hnone i Hi).
    exfalso. apply (Qlt_irrefl tol). eapply Qle_lt_trans; eassumption.
Qed.

(** The value handed back is never a tuple. *)
Lemma newton_never_returns_a_pair u0 max_iter a n :
  newton u0 max_iter <> Return (PyTuple a n).
Proof.
  intros Hret. apply newton_returns_iff in Hret.
  destruct Hret as (i & _ & Hv & _). discriminate.
Qed.

End Facts.
End NewtonFacts.

Module NewtonRuns.
Import Newton Examples.

(** C1.  The claim: a successful call returns the pair of the converged
    vector and the exact number of corrections performed.  The code, on
    [F(u) = u] from [u0 = 1] with [tol = 1/10] and [max_iter = 20]: one
    correction is performed and is counted in [k], but the call hands back
    the bare array [0], not the pair [(0, 1)]. *)
Theorem newton_hands_back_the_bare_vector :
  newton Qabs identity_residual exact_solve (1 # 10) 1 20
    = Return (PyArray 0)
  /\ k (run Qabs identity_residual exact_solve (1 # 10) 1 20) = 1%nat
  /\ newton Qabs identity_residual exact_solve (1 # 10) 1 20
       <> Return (PyTuple 0 1).
Proof.
  split; [vm_compute; reflexivity|].
  split; [vm_compute; reflexivity|].
  apply NewtonFacts.newton_never_returns_a_pair.
Qed.

(** C2.  The claim: failure is signalled only when [max_iter] is exhausted
    without the residual norm falling below [tol].  The code, on
    [F(u) = u] with [tol = 1/10]: with [max_iter = 0] and the converged
    [u0 = 0] it raises with count 0; with [max_iter = 1] and [u0 = 1] the
    one permitted correction reaches the root, and it raises with count
    1. *)
Theorem newton_raises_at_a_converged_iterate :
  (nrm (iterate Qabs identity_residual exact_solve 0 0) < 1 # 10
   /\ newton Qabs identity_residual exact_solve (1 # 10) 0 0
        = Raise (NewtonConvergenceError 0))
  /\ (nrm (iterate Qabs identity_residual exact_solve 1 1) < 1 # 10
      /\ newton Qabs identity_residual exact_solve (1 # 10) 1 1
           = Raise (NewtonConvergenceError 1)).
Proof.
  repeat split; vm_compute; reflexivity.
Qed.

End NewtonRuns.

(** ** [newton] and the array it is given *)

Module NewtonHeapFacts.

Section Facts.
Context {vec : Type} `{VecOps vec}.
Variable norm : vec -> Q.
Variable f : vec -> vec.
Variable jacobian_solver : vec -> vec -> vec.
Variable tol : Q.

Local Abbreviation pure_loop := (Newton.while_loop norm f jacobian_solver tol).

Lemma copy_spec (r : positive) (h : gmap positive vec) (a : vec) :
  h !! r = Some a ->
  exists r', NewtonHeap.copy r h = Some (r', <[r' := a]> h)
             /\ h !! r' = None /\ r' <> r.
Proof.
  intros Hr. exists (fresh (dom h)).
  assert (Hfresh : h !! fresh (dom h) = None).
  { apply not_elem_of_dom. apply is_fresh. }
  unfold NewtonHeap.copy. rewrite Hr. simpl.
  repeat split; [assumption|]. intros Heq. congruence.
Qed.

(** The loop on the store follows the loop on values: it ends with the
    same [k] and [is_converged], the array behind [u] holds the final
    iterate, and no other array is written. *)
Lemma while_loop_refines budget :
  forall (u : positive) (h : gmap positive vec) (s : Newton.locals),
    h !! u = Some (Newton.u s) ->
    Newton.is_converged s = false ->
    exists h',
      NewtonHeap.while_loop norm f jacobian_solver tol budget u
        (Newton.fu s) (Newton.nrm s) (Newton.k s) h
      = Some (Newton.k (pure_loop budget s),
              Newton.is_converged (pure_loop budget s), h')
      /\ h' !! u = Some (Newton.u (pure_loop budget s))
      /\ forall r, r <> u -> h' !! r = h !! r.
Proof.
  induction budget as [|b IH]; intros u h s Hu Hconv; simpl.
  - exists h. rewrite Hconv. auto.
  - destruct (Qlt_le_dec (Newton.nrm s) tol) as [Hlt|Hge]; simpl.
    + exists h. auto.
    + unfold NewtonHeap.iadd. rewrite Hu. simpl.
      rewrite lookup_insert_eq. simpl.
      set (s' := Newton.correct norm f jacobian_solver s).
      destruct (IH u (<[u := Newton.u s']> h) s') as (h' & Hrun & Hu' & Hframe).
      { apply lookup_insert_eq. }
      { exact Hconv. }
      exists h'. split; [exact Hrun|]. split; [exact Hu'|].
      intros r Hr. rewrite (Hframe r Hr). now apply lookup_insert_ne.
Qed.

(** C9.  For every call of [newton] on an array [u0] of the store, the
    call completes, and in the store it leaves behind [u0] holds exactly
    the values it held before, whether the call returns or raises
    [NewtonConvergenceError]; no other array of the caller is written
    either.  The result is the one of the solver on values: on success a
    reference, different from [u0], to the converged vector. *)
Theorem newton_leaves_u0_unmodified
    (h : gmap positive vec) (u0 : positive) (a0 : vec) (max_iter : nat) :
  h !! u0 = Some a0 ->
  exists r h',
    NewtonHeap.newton norm f jacobian_solver tol u0 max_iter h = Some (r, h')
    /\ h' !! u0 = Some a0
    /\ (forall l, is_Some (h !! l) -> h' !! l = h !! l)
    /\ match r with
       | Return u =>
           u <> u0 /\
           exists a, h' !! u = Some a /\
             Newton.newton norm f jacobian_solver tol a0 max_iter
               = Return (PyArray a)
       | Raise e =>
           Newton.newton norm f jacobian_solver tol a0 max_iter = Raise e
       end.
Proof.
  intros Hu0.
  destruct (copy_spec u0 h a0 Hu0) as (u & Hcopy & Hnew & Hne).
  destruct (while_loop_refines max_iter u (<[u := a0]> h)
              (Newton.entry norm f a0)) as (h' & Hrun & Hu & Hframe).
  { apply lookup_insert_eq. }
  { reflexivity. }
  simpl in Hrun.
  unfold NewtonHeap.newton. rewrite Hcopy. simpl.
  rewrite lookup_insert_eq. simpl. rewrite Hrun. simpl.
  eexists _, h'. split; [reflexivity|].
  assert (Hold : forall l, is_Some (h !! l) -> h' !! l = h !! l).
  { intros l [a Hl]. assert (l <> u) by congruence.
    rewrite Hframe by assumption. now apply lookup_insert_ne. }
  split; [rewrite Hold; eauto|]. split; [exact Hold|].
  unfold Newton.newton, Newton.run.
  destruct (Newton.is_converged (pure_loop max_iter _)); simpl.
  - split; [exact Hne|]. eexists. split; [exact Hu | reflexivity].
  - reflexivity.
Qed.

End Facts.

Lemma newton_leaves_u0_unmodified_witness :
  exists r h',
    NewtonHeap.newton Qabs Examples.identity_residual Examples.exact_solve
      (1 # 10) 1%positive 20 (<[1%positive := 1]> (<[2%positive := 7]> ∅))
    = Some (r, h')
    /\ h' !! 1%positive = Some 1
    /\ (forall l,
          is_Some ((<[1%positive := 1]> (<[2%positive := 7]> ∅)
                    : gmap positive Q) !! l) ->
          h' !! l
          = (<[1%positive := 1]> (<[2%positive := 7]> ∅)
             : gmap positive Q) !! l)
    /\ match r with
       | Return u =>
           u <> 1%positive /\
           exists a, h' !! u = Some a /\
             Newton.newton Qabs Examples.identity_residual
               Examples.exact_solve (1 # 10) 1 20 = Return (PyArray a)
       | Raise e =>
           Newton.newton Qabs Examples.identity_residual
             Examples.exact_solve (1 # 10) 1 20 = Raise e
       end.
Proof.
  apply (newton_leaves_u0_unmodified Qabs Examples.identity_residual
           Examples.exact_solve (1 # 10)
           (<[1%positive := 1]> (<[2%positive := 7]> ∅)) 1%positive 1 20).
  reflexivity.
Defined.

End NewtonHeapFacts.

(** ** The continuation driver *)

Module NaturalFacts.
Import Natural.

(** Opens the body of the loop at [s] into its paths. *)
Ltac open_body s :=
  unfold body, grow;
  destruct (exceeds (k s) _) eqn:Hmax;
  [ | destruct (corrector _ _ _ _ _) as [[?u1 ?n]|[?n| |]] eqn:Hcorr;
      [ destruct (pending s) as [[?m ?rest]|] eqn:Hpend;
        [ destruct (Qeq_bool _ _) eqn:Hhit;
          [ destruct rest
          | destruct (Z.eqb _ _) eqn:Hdiv ]
        | destruct (Z.eqb _ _) eqn:Hdiv ]
      | | | ] ].

Lemma nil_or_snoc {A : Type} (l : list A) :
  l = [] \/ exists l' x, l = l' ++ [x].
Proof.
  destruct l as [|a l] using rev_ind; [now left | right; eauto].
Qed.

(** [x / 2] as a product, which linear arithmetic can use. *)
Lemma half_as_product x : x / 2 == x * (1 # 2).
Proof. reflexivity. Qed.

Section Growth.
Variable a : Q.
Variable max_newton_steps : nat.

Lemma slack_formula n :
  (2 <= max_newton_steps)%nat ->
  slack max_newton_steps n
  == (inject_Z (Z.of_nat max_newton_steps) - inject_Z (Z.of_nat n))
     / (inject_Z (Z.of_nat max_newton_steps) - 1).
Proof.
  intros _. unfold slack.
  unfold Z.sub. rewrite !inject_Z_plus, !inject_Z_opp. reflexivity.
Qed.

Lemma slack_nonneg n :
  (2 <= max_newton_steps)%nat -> (n <= max_newton_steps)%nat ->
  0 <= slack max_newton_steps n.
Proof.
  intros Hmax Hn. unfold slack.
  apply Qle_shift_div_l.
  - change 0 with (inject_Z 0). rewrite <- Zlt_Qlt. lia.
  - rewrite Qmult_0_l. change 0 with (inject_Z 0). rewrite <- Zle_Qle. lia.
Qed.

Lemma slack_decreasing n1 n2 :
  (2 <= max_newton_steps)%nat -> (n1 < n2)%nat ->
  slack max_newton_steps n2 < slack max_newton_steps n1.
Proof.
  intros Hmax Hn. unfold slack, Qdiv.
  apply Qmult_lt_compat_r.
  - apply Qinv_lt_0_compat. change 0 with (inject_Z 0).
    rewrite <- Zlt_Qlt. lia.
  - rewrite <- Zlt_Qlt. lia.
Qed.

Lemma growth_ge_1 n : 0 <= a -> 1 <= growth a max_newton_steps n.
Proof.
  intros Ha. unfold growth.
  set (x := slack max_newton_steps n).
  assert (0 <= x ^ 2) by (simpl; nra).
  nra.
Qed.

(** With a positive coefficient, more corrections used means a smaller
    factor (in exact arithmetic). *)
Lemma growth_decreasing n1 n2 :
  0 < a -> (2 <= max_newton_steps)%nat ->
  (n1 < n2)%nat -> (n2 <= max_newton_steps)%nat ->
  growth a max_newton_steps n2 < growth a max_newton_steps n1.
Proof.
  intros Ha Hmax Hlt Hle. unfold growth.
  pose proof (slack_decreasing n1 n2 Hmax Hlt) as Hdec.
  pose proof (slack_nonneg n2 Hmax Hle) as Hnn.
  set (x1 := slack max_newton_steps n1) in *.
  set (x2 := slack max_newton_steps n2) in *.
  assert (Hsq : x2 ^ 2 < x1 ^ 2) by (simpl; nra).
  nra.
Qed.
(** With a non-negative coefficient, more corrections used never means a
    larger factor. *)
Lemma growth_nonincreasing n1 n2 :
  0 <= a -> (2 <= max_newton_steps)%nat ->
  (n1 <= n2)%nat -> (n2 <= max_newton_steps)%nat ->
  growth a max_newton_steps n2 <= growth a max_newton_steps n1.
Proof.
  intros Ha Hmax Hle Hbudget.
  destruct (Nat.eq_dec n1 n2) as [->|Hne]; [apply Qle_refl|].
  unfold growth.
  pose proof (slack_decreasing n1 n2 Hmax ltac:(lia)) as Hdec.
  pose proof (slack_nonneg n2 Hmax Hbudget) as Hnn.
  set (x1 := slack max_newton_steps n1) in *.
  set (x2 := slack max_newton_steps n2) in *.
  assert (Hsq : x2 ^ 2 <= x1 ^ 2) by (simpl; nra).
  nra.
Qed.
End Growth.

Section Facts.
Context {vec : Type} `{VecOps vec}.
Variable newton :
  (vec -> vec) -> (vec -> vec -> vec) -> (vec -> Q) ->
  vec -> Q -> nat -> outcome (vec * nat).
Variable problem : Problem vec.
Variable opts : Options.

Local Abbreviation call := (@call vec).
Local Abbreviation state := (@state vec).
Local Abbreviation corrector := (corrector newton problem opts).
Local Abbreviation start := (start newton problem opts).
Local Abbreviation guess := (guess problem opts).
Local Abbreviation body := (body newton problem opts).
Local Abbreviation loop := (loop newton problem opts).
Local Abbreviation natural := (natural newton problem opts).
Local Abbreviation reaches := (reaches newton problem opts).
Local Abbreviation loop_head := (loop_head newton problem opts).

(** What holds on entry to the loop and is kept by every pass that comes
    back to the loop head holds at every loop head. *)
Lemma loop_head_invariant (P : state -> Prop) u0 lambda0 :
  (forall s0, start u0 lambda0 = Continue s0 -> P s0) ->
  (forall s s', P s -> body s = Continue s' -> P s') ->
  forall s, loop_head u0 lambda0 s -> P s.
Proof.
  intros Hinit Hstep s (s0 & Hstart & Hreach).
  induction Hreach as [|s' s'' _ IH Hbody]; [now apply Hinit|].
  eapply Hstep; eassumption.
Qed.

Lemma loop_head_next u0 lambda0 s s' :
  loop_head u0 lambda0 s -> body s = Continue s' -> loop_head u0 lambda0 s'.
Proof.
  intros (s0 & Hstart & Hreach) Hbody. exists s0. split; [assumption|].
  econstructor; eassumption.
Qed.

(** How a run can end: out of fuel at some loop head, or by a pass that
    breaks or raises, or by an exception before the loop. *)
Lemma loop_ends fuel : forall s st log,
  loop fuel s = (st, log) ->
  exists s', reaches s s' /\
    ((st = OutOfFuel /\ log = calls s')
     \/ (exists s'', body s' = Break s'' /\ st = Returned /\ log = calls s'')
     \/ (exists e, body s' = Throw e log /\ st = Raised e)).
Proof.
  induction fuel as [|fuel IH]; intros s st log Hloop; simpl in Hloop.
  - injection Hloop as <- <-. exists s. split; [constructor | auto].
  - destruct (body s) as [s1|s1|e log1] eqn:Hbody.
    + destruct (IH _ _ _ Hloop) as (s' & Hreach & Hend).
      exists s'. split; [|exact Hend].
      clear Hend Hloop. induction Hreach as [|s2 s3 _ IH' Hb].
      * econstructor; [constructor | exact Hbody].
      * econstructor; eassumption.
    + injection Hloop as <- <-. exists s. split; [constructor|].
      right; left. eauto.
    + injection Hloop as <- <-. exists s. split; [constructor|].
      right; right. eauto.
Qed.

Lemma natural_ends fuel u0 lambda0 st log :
  natural fuel u0 lambda0 = (st, log) ->
  (exists e, start u0 lambda0 = Throw e log /\ st = Raised e)
  \/ exists s, loop_head u0 lambda0 s /\
       ((st = OutOfFuel /\ log = calls s)
        \/ (exists s', body s = Break s' /\ st = Returned /\ log = calls s')
        \/ (exists e, body s = Throw e log /\ st = Raised e)).
Proof.
  unfold Natural.natural. intros Hnat.
  destruct (start u0 lambda0) as [s0|s0|e log0] eqn:Hstart.
  - right. destruct (loop_ends _ _ _ _ Hnat) as (s & Hreach & Hend).
    exists s. split; [exists s0; auto | exact Hend].
  - exfalso. unfold Natural.start in Hstart.
    destruct (corrector _ _) as [[u1 n]|e]; [|discriminate].
    destruct (milestones opts) as [[|m rest]|]; discriminate.
  - left. injection Hnat as <- <-. eauto.
Qed.

(** C10.  When [milestones] is an empty sequence and the initial point is
    solved, the driver invokes the callback for the initial point and then
    ends with [StopIteration], raised by the first [next(milestones)]. *)
Theorem empty_milestones_raise_StopIteration fuel u0 lambda0 u1 n :
  milestones opts = Some [] ->
  corrector lambda0 u0 = Return (u1, n) ->
  natural fuel u0 lambda0
  = (Raised StopIteration,
     [ {| step_index := 0; at_lmbda := lambda0; at_u := u1 |} ]).
Proof.
  intros Hms Hcorr. unfold Natural.natural, Natural.start.
  rewrite Hcorr, Hms. reflexivity.
Qed.

(** *** Rejected trials *)

(** A failed corrector leaves [k], [u] and the callback log alone, halves
    the step size and takes the step size off the trial value. *)
Lemma backoff s n :
  exceeds (k s) (max_steps opts) = false ->
  corrector (predictor s) (guess s (predictor s))
    = Raise (NewtonConvergenceError n) ->
  exists s',
    body s = Continue s'
    /\ k s' = k s /\ u s' = u s /\ calls s' = calls s
    /\ pending s' = pending s
    /\ lambda_stepsize s' = lambda_stepsize s / 2
    /\ lmbda s' = predictor s - lambda_stepsize s.
Proof.
  intros Hmax Hcorr. unfold Natural.body. rewrite Hmax, Hcorr.
  eexists. split; [reflexivity|]. simpl. auto 10.
Qed.

(** With a positive step size the next trial is strictly below the failed
    one (in exact arithmetic). *)
Lemma backoff_next_trial_smaller s s' n :
  exceeds (k s) (max_steps opts) = false ->
  corrector (predictor s) (guess s (predictor s))
    = Raise (NewtonConvergenceError n) ->
  body s = Continue s' ->
  0 < lambda_stepsize s ->
  predictor s' < predictor s.
Proof.
  intros Hmax Hcorr Hbody Hpos.
  destruct (backoff s n Hmax Hcorr)
    as (s1 & Hbody1 & _ & _ & _ & Hpend & Hstep & Hl).
  rewrite Hbody in Hbody1. injection Hbody1 as <-.
  assert (Hhalf : lmbda s' + lambda_stepsize s' < predictor s).
  { rewrite Hstep, Hl, half_as_product. lra. }
  unfold predictor at 1. rewrite Hpend.
  destruct (pending s) as [[m rest]|]; [|exact Hhalf].
  eapply Qle_lt_trans; [apply Q.le_min_l | exact Hhalf].
Qed.

(** When the trial value was not cut down to a milestone, the backoff
    puts [lmbda] back to the last accepted value (in exact arithmetic;
    on doubles up to the rounding of [+] and [-]). *)
Lemma backoff_reverts_unclamped s s' n :
  exceeds (k s) (max_steps opts) = false ->
  corrector (predictor s) (guess s (predictor s))
    = Raise (NewtonConvergenceError n) ->
  body s = Continue s' ->
  predictor s == lmbda s + lambda_stepsize s ->
  lmbda s' == lmbda s.
Proof.
  intros Hmax Hcorr Hbody Hfree.
  destruct (backoff s n Hmax Hcorr)
    as (s1 & Hbody1 & _ & _ & _ & _ & _ & Hl).
  rewrite Hbody in Hbody1. injection Hbody1 as <-.
  rewrite Hl, Hfree. ring.
Qed.

(** When the trial value was cut down to a milestone, the backoff leaves
    [lmbda] strictly below the last accepted value: it takes off the whole
    step size, of which the trial had used only a part. *)
Lemma backoff_overshoots_when_clamped s s' n m rest :
  exceeds (k s) (max_steps opts) = false ->
  corrector (predictor s) (guess s (predictor s))
    = Raise (NewtonConvergenceError n) ->
  body s = Continue s' ->
  pending s = Some (m, rest) ->
  m < lmbda s + lambda_stepsize s ->
  lmbda s' < lmbda s.
Proof.
  intros Hmax Hcorr Hbody Hpend Hclamped.
  destruct (backoff s n Hmax Hcorr)
    as (s1 & Hbody1 & _ & _ & _ & _ & _ & Hl).
  rewrite Hbody in Hbody1. injection Hbody1 as <-.
  rewrite Hl. unfold predictor. rewrite Hpend.
  pose proof (Q.le_min_r (lmbda s + lambda_stepsize s) m). lra.
Qed.

(** *** Step size *)

(** The step size a run starts its loop with. *)
Lemma start_stepsize u0 lambda0 s0 :
  start u0 lambda0 = Continue s0 ->
  lambda_stepsize s0 = lambda_stepsize0 opts.
Proof.
  unfold Natural.start.
  destruct (corrector _ _) as [[u1 n]|e]; [|discriminate].
  destruct (milestones opts) as [[|m rest]|]; try discriminate;
    intros [= <-]; reflexivity.
Qed.

(** A step size within the bounds, multiplied by a factor of at least 1 and
    cut down to [lambda_stepsize_max], is within the bounds. *)
Lemma grown_stepsize_in_bounds (stepsize factor : Q) :
  0 < stepsize ->
  (forall b, lambda_stepsize_max opts = Some b -> stepsize <= b) ->
  1 <= factor ->
  0 < min_max (stepsize * factor) (lambda_stepsize_max opts)
  /\ forall b, lambda_stepsize_max opts = Some b ->
               min_max (stepsize * factor) (lambda_stepsize_max opts) <= b.
Proof.
  intros Hpos Hle Hfactor.
  destruct (lambda_stepsize_max opts) as [b|]; simpl.
  - specialize (Hle b eq_refl). split.
    + apply Q.min_glb_lt; nra.
    + intros b' [= <-]. apply Q.le_min_r.
  - split; [nra | discriminate].
Qed.

(** Every pass keeps the step size within the bounds. *)
Lemma stepsize_kept s s' :
  0 <= lambda_stepsize_aggressiveness opts ->
  0 < lambda_stepsize s ->
  (forall b, lambda_stepsize_max opts = Some b -> lambda_stepsize s <= b) ->
  body s = Continue s' ->
  0 < lambda_stepsize s'
  /\ forall b, lambda_stepsize_max opts = Some b -> lambda_stepsize s' <= b.
Proof.
  intros Hagg Hpos Hle.
  pose proof (fun n => growth_ge_1 (lambda_stepsize_aggressiveness opts)
                         (max_newton_steps opts) n Hagg) as Hg.
  open_body s; intros Hbody; try discriminate;
    injection Hbody as <-; simpl;
    try (split; assumption);
    try (now apply grown_stepsize_in_bounds).
  (* the rejected trial *)
  split; [rewrite half_as_product; lra|].
  intros b Hb. specialize (Hle b Hb). rewrite half_as_product. lra.
Qed.

(** C5, amended.  In every run started with a step size that is strictly
    positive and not above [lambda_stepsize_max], and with a non-negative
    aggressiveness coefficient, the step size is never negative and never
    above [lambda_stepsize_max] at a loop head, where the predictor uses
    it, the first predictor step included.  (That it is not zero either
    holds of the rationals only: on doubles the halving underflows.) *)
Theorem stepsize_stays_in_bounds u0 lambda0 s :
  0 < lambda_stepsize0 opts ->
  (forall b, lambda_stepsize_max opts = Some b -> lambda_stepsize0 opts <= b) ->
  0 <= lambda_stepsize_aggressiveness opts ->
  loop_head u0 lambda0 s ->
  0 <= lambda_stepsize s
  /\ forall b, lambda_stepsize_max opts = Some b -> lambda_stepsize s <= b.
Proof.
  intros Hpos0 Hmax0 Hagg Hhead.
  assert (Hstrict : 0 < lambda_stepsize s
                    /\ forall b, lambda_stepsize_max opts = Some b ->
                                 lambda_stepsize s <= b).
  { revert s Hhead.
    apply (loop_head_invariant
             (fun s => 0 < lambda_stepsize s
                       /\ forall b, lambda_stepsize_max opts = Some b ->
                                    lambda_stepsize s <= b)).
    - intros s0 Hstart. rewrite (start_stepsize _ _ _ Hstart). auto.
    - intros s s' [Hpos Hle] Hbody. now apply (stepsize_kept s). }
  destruct Hstrict as [Hpos Hle]. split; [now apply Qlt_le_weak | exact Hle].
Qed.

(** *** Accepted steps *)

(** C8, amended.  After an accepted step that does not land on the pending
    milestone, with [max_newton_steps >= 2], the new step size is
    [min(stepsize * (1 + a * ((max_newton_steps - n) / (max_newton_steps - 1))^2),
    lambda_stepsize_max)], where [n] is the number of iterations the
    corrector reported; and when [a >= 0] the factor does not increase
    with [n] over [0 .. max_newton_steps]. *)
Theorem stepsize_growth_rule s u1 n :
  (2 <= max_newton_steps opts)%nat ->
  exceeds (k s) (max_steps opts) = false ->
  corrector (predictor s) (guess s (predictor s)) = Return (u1, n) ->
  (forall m rest, pending s = Some (m, rest) -> ~ predictor s == m) ->
  (exists s',
     body s = Continue s'
     /\ lmbda s' = predictor s /\ u s' = u1
     /\ lambda_stepsize s'
        = min_max (lambda_stepsize s
                   * growth (lambda_stepsize_aggressiveness opts)
                            (max_newton_steps opts) n)
                  (lambda_stepsize_max opts))
  /\ growth (lambda_stepsize_aggressiveness opts) (max_newton_steps opts) n
     == 1 + lambda_stepsize_aggressiveness opts
            * ((inject_Z (Z.of_nat (max_newton_steps opts))
                - inject_Z (Z.of_nat n))
               / (inject_Z (Z.of_nat (max_newton_steps opts)) - 1)) ^ 2
  /\ (0 <= lambda_stepsize_aggressiveness opts ->
      forall n1 n2, (n1 <= n2)%nat -> (n2 <= max_newton_steps opts)%nat ->
        growth (lambda_stepsize_aggressiveness opts) (max_newton_steps opts) n2
        <= growth (lambda_stepsize_aggressiveness opts) (max_newton_steps opts) n1).
Proof.
  intros Hbudget Hmax Hcorr Hoff. split; [|split].
  - unfold Natural.body, Natural.grow. rewrite Hmax, Hcorr.
    assert (Hdiv : (Z.of_nat (max_newton_steps opts) - 1 =? 0)%Z = false)
      by (apply Z.eqb_neq; lia).
    destruct (pending s) as [[m rest]|] eqn:Hpend.
    + destruct (Qeq_bool (predictor s) m) eqn:Hhit.
      * apply Qeq_bool_iff in Hhit. now destruct (Hoff m rest eq_refl).
      * rewrite Hdiv. eexists. split; [reflexivity|]. simpl. auto.
    + rewrite Hdiv. eexists. split; [reflexivity|]. simpl. auto.
  - unfold growth. now rewrite slack_formula.
  - intros Ha n1 n2 Hle Hbudget'. now apply growth_nonincreasing.
Qed.

(** *** Milestones *)

Lemma not_skipped_bounded m (log : list call) :
  (forall c, In c log -> at_lmbda c <= m) -> not_skipped m log.
Proof.
  intros Hle before c later -> Hgt. exfalso.
  assert (at_lmbda c <= m) by (apply Hle, in_elt). lra.
Qed.

Lemma not_skipped_snoc m (log : list call) c :
  not_skipped m log ->
  (m < at_lmbda c -> exists c', In c' log /\ at_lmbda c' == m) ->
  not_skipped m (log ++ [c]).
Proof.
  intros Hlog Hc before c0 later Heq Hgt.
  destruct (nil_or_snoc later) as [->|(later' & x & ->)].
  - apply app_inj_tail in Heq as [<- <-]. now apply Hc.
  - change (before ++ c0 :: later' ++ [x])
      with (before ++ (c0 :: later') ++ [x]) in Heq.
    rewrite app_assoc in Heq. apply app_inj_tail in Heq as [-> _].
    eapply Hlog; [reflexivity | exact Hgt].
Qed.

Lemma sorted_after (l1 l2 : list Q) x :
  StronglySorted Qlt (l1 ++ x :: l2) -> Forall (Qlt x) l2.
Proof.
  induction l1 as [|y l1 IH]; simpl; intros Hs;
    apply StronglySorted_inv in Hs as [Hs Hall]; auto.
Qed.

Lemma le_last_milestone (l1 l2 : list Q) x d :
  StronglySorted Qlt (l1 ++ x :: l2) -> x <= List.last (l1 ++ x :: l2) d.
Proof.
  intros Hs. apply sorted_after in Hs.
  destruct (nil_or_snoc l2) as [->|(l2' & y & ->)].
  - rewrite List.last_last. lra.
  - change (l1 ++ x :: l2' ++ [y]) with (l1 ++ (x :: l2') ++ [y]).
    rewrite app_assoc, List.last_last.
    rewrite List.Forall_forall in Hs.
    assert (x < y) by (apply Hs, in_elt). lra.
Qed.

Section Milestones.
Variable ms : list Q.
Variable lambda0 : Q.
Hypothesis configured : milestones opts = Some ms.
Hypothesis increasing : StronglySorted Qlt (lambda0 :: ms).

Local Abbreviation on_track := (on_track ms).

Lemma on_track_start u0 s0 :
  start u0 lambda0 = Continue s0 -> on_track s0.
Proof.
  unfold Natural.start.
  destruct (corrector _ _) as [[u1 n]|e]; [|discriminate].
  rewrite configured.
  apply StronglySorted_inv in increasing as [_ Hall].
  destruct ms as [|m rest]; [discriminate|].
  apply Forall_inv in Hall.
  intros [= <-]. exists [], m, rest. simpl.
  split; [reflexivity|]. split; [reflexivity|]. split.
  - intros c [<-|[]]. exact Hall.
  - intros d [].
Qed.

Lemma predictor_clamped (s : state) m rest :
  pending s = Some (m, rest) -> predictor s <= m.
Proof.
  intros Hpend. unfold predictor. rewrite Hpend. apply Q.le_min_r.
Qed.

Lemma on_track_next s s' :
  on_track s -> body s = Continue s' -> on_track s'.
Proof.
  intros (passed & m & rest & Hms & Hpend & Hbelow & Hpassed).
  pose proof (predictor_clamped s m rest Hpend) as Hclamp.
  unfold Natural.body, Natural.grow. rewrite Hpend.
  revert Hclamp. generalize (predictor s) as l. intros l Hclamp.
  destruct (exceeds _ _); [discriminate|].
  destruct (Natural.corrector _ _ _ _ _) as [[u1 n]|[n| |]];
    try discriminate.
  - destruct (Qeq_bool l m) eqn:Hhit.
    + apply Qeq_bool_iff in Hhit.
      destruct rest as [|m' rest']; [discriminate|].
      intros [= <-]. exists (passed ++ [m]), m', rest'. simpl.
      assert (Hlt : m < m').
      { assert (Hs : StronglySorted Qlt ms)
          by (now apply StronglySorted_inv in increasing).
        rewrite Hms in Hs. apply sorted_after in Hs.
        now apply Forall_inv in Hs. }
      split; [now rewrite Hms, <- app_assoc|]. split; [reflexivity|].
      split.
      * intros c [Hc|[<-|[]]]%in_app_or; simpl.
        -- specialize (Hbelow c Hc). lra.
        -- lra.
      * intros d [Hd|[<-|[]]]%in_app_or.
        -- destruct (Hpassed d Hd) as [Hskip (c & Hc & Hcd)]. split.
           ++ apply not_skipped_snoc; [exact Hskip|]. eauto.
           ++ exists c. split; [apply in_or_app; auto | exact Hcd].
        -- split.
           ++ apply not_skipped_bounded.
              intros c [Hc|[<-|[]]]%in_app_or; simpl.
              ** specialize (Hbelow c Hc). lra.
              ** lra.
           ++ eexists. split; [apply in_or_app; right; left; reflexivity|].
              simpl. exact Hhit.
    + apply Qeq_bool_neq in Hhit.
      destruct (Z.eqb _ _); [discriminate|].
      intros [= <-]. exists passed, m, rest. simpl.
      split; [exact Hms|]. split; [reflexivity|]. split.
      * intros c [Hc|[<-|[]]]%in_app_or; simpl; [now apply Hbelow|].
        apply Qle_lteq in Hclamp as [Hlt|Heq]; [exact Hlt | contradiction].
      * intros d Hd. destruct (Hpassed d Hd) as [Hskip (c & Hc & Hcd)].
        split.
        -- apply not_skipped_snoc; [exact Hskip|]. eauto.
        -- exists c. split; [apply in_or_app; auto | exact Hcd].
  - intros [= <-]. exists passed, m, rest. simpl. auto.
Qed.

Lemma on_track_head u0 s :
  loop_head u0 lambda0 s -> on_track s.
Proof.
  apply (loop_head_invariant (Natural.on_track ms)).
  - apply on_track_start.
  - apply on_track_next.
Qed.

(** How a pass that ends the run leaves the callback log. *)
Lemma pass_outcome (s : state) m rest :
  pending s = Some (m, rest) ->
  match body s with
  | Continue _ => True
  | Break s' =>
      calls s' = calls s
      \/ (rest = [] /\ exists c, calls s' = calls s ++ [c]
                                 /\ at_lmbda c == m)
  | Throw _ log =>
      log = calls s
      \/ exists c, log = calls s ++ [c] /\ at_lmbda c < m
  end.
Proof.
  intros Hpend.
  pose proof (predictor_clamped s m rest Hpend) as Hclamp.
  unfold Natural.body, Natural.grow. rewrite Hpend.
  revert Hclamp. generalize (predictor s) as l. intros l Hclamp.
  destruct (exceeds _ _); [now left|].
  destruct (Natural.corrector _ _ _ _ _) as [[u1 n]|[n| |]];
    try (now left); [|exact I].
  destruct (Qeq_bool l m) eqn:Hhit.
  - apply Qeq_bool_iff in Hhit.
    destruct rest as [|m' rest']; [|exact I].
    right. split; [reflexivity|]. eexists. split; [reflexivity|].
    exact Hhit.
  - apply Qeq_bool_neq in Hhit.
    destruct (Z.eqb _ _); [|exact I].
    right. eexists. split; [reflexivity|]. simpl.
    apply Qle_lteq in Hclamp as [Hlt|Heq]; [exact Hlt | contradiction].
Qed.

(** A log that is the one of an on-track loop head, possibly with one
    more call that the clamp kept at or below the pending milestone,
    skips no milestone. *)
Lemma log_skips_nothing (s : state) passed m rest log :
  ms = passed ++ m :: rest ->
  (forall c, In c (calls s) -> at_lmbda c < m) ->
  (forall d, In d passed ->
     not_skipped d (calls s)
     /\ exists c, In c (calls s) /\ at_lmbda c == d) ->
  log = calls s \/ (exists c, log = calls s ++ [c] /\ at_lmbda c <= m) ->
  forall d, In d ms -> not_skipped d log.
Proof.
  intros Hms Hbelow Hpassed Hlog d Hd.
  assert (Hsorted : StronglySorted Qlt ms)
    by (now apply StronglySorted_inv in increasing).
  rewrite Hms in Hd, Hsorted. apply in_app_or in Hd as [Hd|Hd].
  - destruct (Hpassed d Hd) as [Hskip (c' & Hc' & Hhit)].
    destruct Hlog as [->|(c & -> & _)]; [exact Hskip|].
    apply not_skipped_snoc; [exact Hskip | eauto].
  - assert (Hmd : m <= d).
    { destruct Hd as [<-|Hd]; [lra|].
      apply sorted_after in Hsorted.
      rewrite List.Forall_forall in Hsorted.
      specialize (Hsorted d Hd). lra. }
    apply not_skipped_bounded. intros c Hc.
    destruct Hlog as [->|(c1 & -> & Hc1)].
    + specialize (Hbelow c Hc). lra.
    + apply in_app_or in Hc as [Hc|[<-|[]]]; [|lra].
      specialize (Hbelow c Hc). lra.
Qed.

(** C7.  With milestones that are strictly increasing and above
    [lambda0], in every run: no callback receives a parameter value
    above a milestone unless an earlier callback has received that
    milestone itself; and once a callback has received the final
    milestone, that callback is the last one and the driver has
    returned normally. *)
Theorem milestones_are_hit_in_order fuel u0 st log :
  natural fuel u0 lambda0 = (st, log) ->
  (forall m, In m ms -> not_skipped m log)
  /\ (forall final_milestone earlier c,
        ms = earlier ++ [final_milestone] ->
        In c log -> at_lmbda c == final_milestone ->
        st = Returned /\ exists before, log = before ++ [c]).
Proof.
  intros Hrun. apply natural_ends in Hrun.
  destruct Hrun as [(e & Hstart & ->)|(s & Hhead & Hend)].
  - (* an exception before the loop *)
    assert (Hlog : log = [] \/ ms = []).
    { revert Hstart. unfold Natural.start.
      destruct (corrector _ _) as [[u1 n]|e'];
        [|intros [= _ <-]; now left].
      rewrite configured. destruct ms as [|m rest];
        [now right | discriminate]. }
    destruct Hlog as [->|Hnil].
    + split; [|intros ? ? ? _ []].
      intros m _ before c later Heq. now destruct before.
    + rewrite Hnil. split; [intros m []|].
      intros ? earlier ? Heq. now destruct earlier.
  - apply on_track_head in Hhead.
    destruct Hhead as (passed & m & rest & Hms & Hpend & Hbelow & Hpassed).
    pose proof (pass_outcome s m rest Hpend) as Hpass.
    assert (Hlast : forall final_milestone earlier,
               ms = earlier ++ [final_milestone] -> m <= final_milestone).
    { intros fm earlier Heq.
      assert (Hsorted : StronglySorted Qlt ms)
        by (now apply StronglySorted_inv in increasing).
      rewrite Hms in Hsorted.
      pose proof (le_last_milestone passed rest m 0 Hsorted) as Hle.
      rewrite <- Hms, Heq, List.last_last in Hle. exact Hle. }
    assert (Hcases :
      (log = calls s
       \/ exists c, log = calls s ++ [c] /\ at_lmbda c < m)
      \/ (st = Returned /\ rest = []
          /\ exists c, log = calls s ++ [c] /\ at_lmbda c == m)).
    { destruct Hend as [[-> ->]|[(s' & Hbody & -> & ->)|(e & Hbody & ->)]].
      - left; now left.
      - rewrite Hbody in Hpass.
        destruct Hpass as [->|(-> & c & -> & Hc)];
          [left; now left | right; eauto].
      - rewrite Hbody in Hpass. now left. }
    split.
    + apply (log_skips_nothing s passed m rest); try assumption.
      destruct Hcases as [[->|(c & -> & Hc)]|(_ & _ & c & -> & Hc)];
        [now left | right; exists c; split; [reflexivity|lra]
        | right; exists c; split; [reflexivity|lra]].
    + intros fm earlier c Hfm Hin Hc.
      specialize (Hlast fm earlier Hfm).
      destruct Hcases as [[->|(c1 & -> & Hc1)]|(-> & -> & c1 & -> & Hc1)].
      * specialize (Hbelow c Hin). lra.
      * apply in_app_or in Hin as [Hin|[<-|[]]]; [|lra].
        specialize (Hbelow c Hin). lra.
      * split; [reflexivity|].
        apply in_app_or in Hin as [Hin|[<-|[]]]; [|eauto].
        specialize (Hbelow c Hin). lra.
Qed.

End Milestones.

(** *** What the callback receives *)

Lemma head_after_reaches n : forall s0 s,
  head_after newton problem opts n s0 = Some s -> reaches s0 s.
Proof.
  induction n as [|n IH]; simpl; intros s0 s Hn.
  - injection Hn as <-. constructor.
  - destruct (head_after _ _ _ n s0) as [s1|] eqn:Hs1; [|discriminate].
    destruct (body s1) as [s2| |] eqn:Hbody; try discriminate.
    injection Hn as <-.
    eapply reaches_next; [apply IH; exact Hs1 | exact Hbody].
Qed.

(** A pass adds at most one call to the log: the trial value and the
    vector the corrector returned for it. *)
Lemma pass_log (s : state) :
  let log := match body s with
             | Continue s' | Break s' => calls s'
             | Throw _ log => log
             end in
  log = calls s
  \/ exists u1 n,
       corrector (predictor s) (guess s (predictor s)) = Return (u1, n)
       /\ log = calls s ++ [ {| step_index := k s;
                                at_lmbda := predictor s;
                                at_u := u1 |} ].
Proof.
  open_body s; simpl; try (now left); right; eauto.
Qed.

Section Roots.
(** The corrector only returns vectors whose residual is below the
    tolerance. *)
Hypothesis newton_sound :
  forall residual solve norm u0 tol max_iter u1 n,
    newton residual solve norm u0 tol max_iter = Return (u1, n) ->
    norm (residual u1) < tol.

Local Abbreviation is_root := (is_root problem opts).

(** Every callback invocation, the initial one included, receives a
    vector whose residual at the parameter value it is called with is
    below [newton_tol]. *)
Lemma callbacks_receive_roots fuel u0 lambda0 :
  Forall is_root (snd (natural fuel u0 lambda0)).
Proof.
  destruct (natural fuel u0 lambda0) as [st log] eqn:Hrun. simpl.
  apply natural_ends in Hrun.
  destruct Hrun as [(e & Hstart & _)|(s & Hhead & Hend)].
  - revert Hstart. unfold Natural.start.
    destruct (corrector _ _) as [[u1 n]|e'] eqn:Hcorr;
      [|intros [= _ <-]; constructor].
    destruct (milestones opts) as [[|m rest]|]; try discriminate.
    intros [= _ <-]. repeat constructor.
    apply newton_sound in Hcorr. exact Hcorr.
  - assert (Hs : Forall is_root (calls s)).
    { clear Hend. revert s Hhead.
      apply (loop_head_invariant (fun s => Forall is_root (calls s))).
      - intros s0. unfold Natural.start.
        destruct (corrector _ _) as [[u1 n]|e'] eqn:Hcorr;
          [|discriminate].
        apply newton_sound in Hcorr.
        destruct (milestones opts) as [[|m rest]|]; try discriminate;
          intros [= <-]; repeat constructor; exact Hcorr.
      - intros s s' Hs Hbody. pose proof (pass_log s) as Hlog.
        rewrite Hbody in Hlog. simpl in Hlog.
        destruct Hlog as [->|(u1 & n & Hcorr & ->)]; [exact Hs|].
        apply Forall_app. split; [exact Hs|]. repeat constructor.
        apply newton_sound in Hcorr. exact Hcorr. }
    pose proof (pass_log s) as Hlog.
    assert (Hcases : log = calls s
                     \/ exists u1 n,
                          corrector (predictor s) (guess s (predictor s))
                            = Return (u1, n)
                          /\ log = calls s
                                   ++ [ {| step_index := k s;
                                           at_lmbda := predictor s;
                                           at_u := u1 |} ]).
    { destruct Hend as [[_ ->]|[(s' & Hbody & _ & ->)|(e & Hbody & _)]];
        [now left | |]; rewrite Hbody in Hlog; exact Hlog. }
    destruct Hcases as [->|(u1 & n & Hcorr & ->)]; [exact Hs|].
    apply Forall_app. split; [exact Hs|]. repeat constructor.
    apply newton_sound in Hcorr. exact Hcorr.
Qed.
End Roots.

(** *** Runs without milestones *)

Lemma nondecreasing_snoc (log : list call) x :
  nondecreasing log ->
  (forall c, In c log -> at_lmbda c <= at_lmbda x) ->
  nondecreasing (log ++ [x]).
Proof.
  intros Hlog Hx before c later c' Heq Hin.
  destruct (nil_or_snoc later) as [->|(later' & y & ->)]; [destruct Hin|].
  change (before ++ c :: later' ++ [y])
    with (before ++ (c :: later') ++ [y]) in Heq.
  rewrite app_assoc in Heq. apply app_inj_tail in Heq as [-> <-].
  apply in_app_or in Hin as [Hin|[<-|[]]].
  - eapply Hlog; [reflexivity | exact Hin].
  - apply Hx, in_elt.
Qed.

Section Forward.
Hypothesis no_milestones : milestones opts = None.
Hypothesis positive0 : 0 < lambda_stepsize0 opts.
Hypothesis bounded0 :
  forall b, lambda_stepsize_max opts = Some b -> lambda_stepsize0 opts <= b.
Hypothesis aggressive : 0 <= lambda_stepsize_aggressiveness opts.

Local Abbreviation forward := (forward opts).

Lemma forward_head u0 lambda0 s : loop_head u0 lambda0 s -> forward s.
Proof.
  revert s. apply (loop_head_invariant (Natural.forward opts)).
  - intros s0 Hstart. pose proof (start_stepsize _ _ _ Hstart) as Hstep.
    revert Hstart Hstep. unfold Natural.start.
    destruct (corrector _ _) as [[u1 n]|e]; [|discriminate].
    rewrite no_milestones. intros [= <-] _. unfold Natural.forward. simpl.
    split; [reflexivity|]. split; [auto|]. split.
    + intros c [<-|[]]. simpl. lra.
    + intros [|c0 before] c later c' [= _ Hlater] Hin.
      * subst later. destruct Hin.
      * now destruct before.
  - intros s s' (Hpend & [Hpos Hle] & Hbelow & Hlog) Hbody.
    pose proof (stepsize_kept s s' aggressive Hpos Hle Hbody) as Hstep.
    revert Hbody. unfold Natural.body, Natural.grow, predictor.
    rewrite Hpend.
    destruct (exceeds _ _); [discriminate|].
    destruct (Natural.corrector _ _ _ _ _) as [[u1 n]|[n| |]];
      try discriminate.
    + destruct (Z.eqb _ _); [discriminate|].
      intros [= <-]. unfold Natural.forward. simpl.
      split; [reflexivity|]. split; [exact Hstep|].
      assert (Hnew : forall c, In c (calls s) ->
                       at_lmbda c <= lmbda s + lambda_stepsize s).
      { intros c Hc. specialize (Hbelow c Hc). lra. }
      split.
      * intros c [Hc|[<-|[]]]%in_app_or; [now apply Hnew | simpl; lra].
      * apply nondecreasing_snoc; [exact Hlog | exact Hnew].
    + intros [= <-]. unfold Natural.forward. simpl.
      split; [reflexivity|]. split; [exact Hstep|]. split; [|exact Hlog].
      intros c Hc. specialize (Hbelow c Hc). lra.
Qed.

(** Without milestones, from a positive initial step size within
    [lambda_stepsize_max] and with a non-negative aggressiveness
    coefficient, the parameter values passed to the callback never
    decrease, in exact arithmetic.  (On doubles the backoff can leave
    [lmbda] one rounding below the last accepted value.) *)
Lemma forward_only fuel u0 lambda0 :
  nondecreasing (snd (natural fuel u0 lambda0)).
Proof.
  destruct (natural fuel u0 lambda0) as [st log] eqn:Hrun. simpl.
  apply natural_ends in Hrun.
  destruct Hrun as [(e & Hstart & _)|(s & Hhead & Hend)].
  - assert (Hnil : log = []).
    { revert Hstart. unfold Natural.start.
      destruct (corrector _ _) as [[u1 n]|e']; [|now intros [= _ <-]].
      rewrite no_milestones. discriminate. }
    rewrite Hnil. intros before c later c' Heq. now destruct before.
  - apply forward_head in Hhead.
    destruct Hhead as (Hpend & [Hpos _] & Hbelow & Hlog).
    pose proof (pass_log s) as Hpass.
    assert (Hcases :
      log = calls s
      \/ exists u1,
           log = calls s ++ [ {| step_index := k s;
                                 at_lmbda := predictor s;
                                 at_u := u1 |} ]).
    { destruct Hend as [[_ ->]|[(s' & Hbody & _ & ->)|(e & Hbody & _)]];
        [now left | |]; rewrite Hbody in Hpass;
        (destruct Hpass as [->|(u1 & n & _ & ->)]; [now left | right; eauto]). }
    destruct Hcases as [->|(u1 & ->)]; [exact Hlog|].
    apply nondecreasing_snoc; [exact Hlog|].
    intros c Hc. specialize (Hbelow c Hc). simpl.
    unfold predictor. rewrite Hpend. lra.
Qed.

End Forward.

End Facts.

(** The solver modelled in [Pacopy] only returns vectors whose residual is
    below the tolerance, after at most [max_iter] corrections. *)
Lemma solve_sound {vec : Type} `{VecOps vec}
    (residual solve : _) (norm : vec -> Q) tol budget :
  forall u0 steps u1 n,
    Pacopy.solve residual solve norm u0 tol budget steps = Return (u1, n) ->
    norm (residual u1) < tol /\ (steps <= n <= steps + budget)%nat.
Proof.
  induction budget as [|b IH]; intros u0 steps u1 n; simpl;
    destruct (Qlt_le_dec _ _) as [Hlt|Hge]; try discriminate.
  - intros [= <- <-]. split; [exact Hlt | lia].
  - intros [= <- <-]. split; [exact Hlt | lia].
  - intros Hrec. apply IH in Hrec as [Hroot Hn]. split; [exact Hroot | lia].
Qed.

(** With that solver every callback of the driver receives a converged
    vector. *)
Lemma pacopy_callbacks_receive_roots {vec : Type} `{VecOps vec}
    (problem : Problem vec) (opts : Options) fuel u0 lambda0 :
  Forall (is_root problem opts)
         (snd (natural Pacopy.newton problem opts fuel u0 lambda0)).
Proof.
  apply callbacks_receive_roots.
  intros residual solve norm v tol max_iter u1 n Hret.
  now apply solve_sound in Hret.
Qed.

End NaturalFacts.

(** ** Runs of the driver on concrete problems *)

Module NaturalRuns.
Import Natural Examples.

Lemma head_of_loop_head problem opts u0 lambda0 n s :
  head_of problem opts u0 lambda0 n = Some s ->
  loop_head problem opts u0 lambda0 s.
Proof.
  unfold head_of, Examples.start, loop_head, Natural.loop_head.
  destruct (Natural.start _ _ _ u0 lambda0) as [s0| |]; try discriminate.
  intros Hn. exists s0. split; [reflexivity|].
  eapply NaturalFacts.head_after_reaches. exact Hn.
Qed.

(** C3.  The claim: at the start of every continuation step the stored [u]
    is a converged root for the stored [lmbda].  The code, on
    [gap_problem] from [(u0, lambda0) = (0, 0)] with initial step 2/5 and the
    milestone 1/2: the step to 2/5 is accepted, the next trial is cut down
    to the milestone and rejected, and the loop head after that stores
    [u = 2/5], the root at 2/5, with [lmbda = 1/2 - 6/5 = -7/10], where its
    residual norm [(11/10)^2] is not below [newton_tol]. *)
Theorem stored_pair_after_a_clamped_rejection :
  exists s,
    loop_head gap_problem towards_gap 0 0 s
    /\ u s == 2 # 5
    /\ lmbda s == - (7 # 10)
    /\ norm2_r gap_problem (f gap_problem (u s) (lmbda s)) == 121 # 100
    /\ ~ is_root gap_problem towards_gap
           {| step_index := k s; at_lmbda := lmbda s; at_u := u s |}.
Proof.
  eexists. split.
  { apply (head_of_loop_head _ _ _ _ 2). vm_compute. reflexivity. }
  repeat split; try (vm_compute; reflexivity).
  vm_compute. discriminate.
Qed.

(** C4.  The claim: the parameter values passed to the callback never
    decrease.  The code, on the run of C3 continued by one pass: the
    callback is invoked with 0, then 2/5, then -1/10. *)
Theorem callback_lmbda_decreases :
  map (fun c => (step_index c, Qred (at_lmbda c)))
      (snd (natural gap_problem towards_gap 3 0 0))
  = [ (0%nat, 0); (1%nat, 2 # 5); (2%nat, (-1) # 10) ]
  /\ (-1) # 10 < 2 # 5.
Proof.
  split; vm_compute; reflexivity.
Qed.

(** C6.  The claim: after a failed corrector the driver is back at the last
    accepted [(u, lmbda)].  The code, on the run of C3: at the loop head
    with the accepted [lmbda = 2/5] and step size 6/5 the trial value is the
    milestone 1/2, the corrector fails there, and the next loop head has
    the same [u], half the step size, and [lmbda = -7/10] instead of 2/5. *)
Theorem clamped_rejection_does_not_revert :
  exists s s',
    loop_head gap_problem towards_gap 0 0 s
    /\ lmbda s == 2 # 5
    /\ lambda_stepsize s == 6 # 5
    /\ predictor s == 1 # 2
    /\ corrector gap_problem towards_gap (predictor s)
         (guess gap_problem towards_gap s (predictor s))
       = Raise (NewtonConvergenceError 5)
    /\ body gap_problem towards_gap s = Continue s'
    /\ u s' = u s /\ k s' = k s /\ calls s' = calls s
    /\ lambda_stepsize s' == 3 # 5
    /\ lmbda s' == - (7 # 10)
    /\ ~ lmbda s' == lmbda s.
Proof.
  eexists. eexists. split.
  { apply (head_of_loop_head _ _ _ _ 1). vm_compute. reflexivity. }
  repeat split; try (vm_compute; reflexivity).
  vm_compute. discriminate.
Qed.

(** C5, as stated, fails.  With initial step 1 and [lambda_stepsize_max]
    1/2 the first predictor step uses the step size 1; with the
    aggressiveness coefficient -2 the second predictor step uses the step
    size -1/10; and on doubles the default initial step 0.1, still
    positive after 1071 rejected trials in a row, is 0.0 after 1072. *)
Lemma stepsize_leaves_its_bounds :
  (exists s,
     loop_head linear_problem
       (with_stepsize_max (1 # 2) (with_stepsize0 1 zero_order)) 0 0 s
     /\ 0 < lambda_stepsize0
              (with_stepsize_max (1 # 2) (with_stepsize0 1 zero_order))
     /\ ~ lambda_stepsize s <= 1 # 2)
  /\ (exists s,
        loop_head linear_problem
          (with_aggressiveness (- (2)) zero_order) 0 0 s
        /\ 0 < lambda_stepsize0 (with_aggressiveness (- (2)) zero_order)
        /\ ~ 0 < lambda_stepsize s)
  /\ (PrimFloat.ltb 0 (Binary64.rejections 1071 0x1.999999999999ap-4%float)
      = true
      /\ Binary64.rejections 1072 0x1.999999999999ap-4%float = 0%float).
Proof.
  split; [|split; [|split; vm_compute; reflexivity]].
  - eexists. split.
    { apply (head_of_loop_head _ _ _ _ 0). vm_compute. reflexivity. }
    split; [reflexivity|]. vm_compute. intros Hle. now apply Hle.
  - eexists. split.
    { apply (head_of_loop_head _ _ _ _ 1). vm_compute. reflexivity. }
    split; [reflexivity|]. vm_compute. discriminate.
Qed.

Lemma stepsize_stays_in_bounds_witness :
  exists s,
    head_of linear_problem (with_stepsize_max 1 zero_order) 0 0 2 = Some s
    /\ 0 <= lambda_stepsize s
    /\ forall b,
         lambda_stepsize_max (with_stepsize_max 1 zero_order) = Some b ->
         lambda_stepsize s <= b.
Proof.
  eexists. split; [vm_compute; reflexivity|].
  apply (NaturalFacts.stepsize_stays_in_bounds Pacopy.newton linear_problem
           (with_stepsize_max 1 zero_order) 0 0).
  - reflexivity.
  - intros b [= <-]. vm_compute. discriminate.
  - vm_compute. discriminate.
  - apply (head_of_loop_head _ _ _ _ 2). vm_compute. reflexivity.
Defined.

(** C8, as stated, fails.  With the aggressiveness coefficient 0 the
    growth factor is 1 whatever the number of iterations; and on doubles
    it is 1.0 for 0 and for 1 iterations also with the positive coefficient
    1e-17, which the sum with 1 absorbs. *)
Lemma growth_is_not_strictly_decreasing :
  (growth 0 5 0 == 1 /\ growth 0 5 1 == 1
   /\ ~ growth 0 5 1 < growth 0 5 0)
  /\ (PrimFloat.ltb 0 0x1.70ef54646d497p-57%float = true
      /\ Binary64.growth 0x1.70ef54646d497p-57%float 5 0 = 1%float
      /\ Binary64.growth 0x1.70ef54646d497p-57%float 5 1 = 1%float
      /\ PrimFloat.ltb (Binary64.growth 0x1.70ef54646d497p-57%float 5 1)
                       (Binary64.growth 0x1.70ef54646d497p-57%float 5 0)
         = false).
Proof.
  split.
  - repeat split; try (vm_compute; reflexivity).
    vm_compute. discriminate.
  - repeat split; vm_compute; reflexivity.
Qed.

Lemma stepsize_growth_rule_witness :
  (exists s',
     body linear_problem zero_order
       {| k := 1; lmbda := 0; u := 0; lambda_stepsize := 1 # 10;
          pending := None;
          calls := [ {| step_index := 0; at_lmbda := 0; at_u := 0 |} ] |}
     = Continue s'
     /\ lmbda s' = 1 # 10 /\ u s' = 1 # 10
     /\ lambda_stepsize s' = min_max ((1 # 10) * growth 2 5 1) None)
  /\ growth 2 5 1
     == 1 + 2 * ((inject_Z (Z.of_nat 5) - inject_Z (Z.of_nat 1))
                 / (inject_Z (Z.of_nat 5) - 1)) ^ 2
  /\ (0 <= 2 ->
      forall n1 n2, (n1 <= n2)%nat -> (n2 <= 5)%nat ->
        growth 2 5 n2 <= growth 2 5 n1).
Proof.
  apply (NaturalFacts.stepsize_growth_rule Pacopy.newton linear_problem
           zero_order
           {| k := 1; lmbda := 0; u := 0; lambda_stepsize := 1 # 10;
              pending := None;
              calls := [ {| step_index := 0; at_lmbda := 0; at_u := 0 |} ] |}
           (1 # 10) 1).
  - simpl. lia.
  - reflexivity.
  - reflexivity.
  - simpl. intros m rest Hnone. discriminate.
Defined.

Lemma milestones_are_hit_in_order_witness :
  (forall m, In m [1 # 2; 1] ->
     not_skipped m (snd (natural linear_problem two_milestones 10 0 0)))
  /\ (forall final_milestone earlier c,
        [1 # 2; 1] = earlier ++ [final_milestone] ->
        In c (snd (natural linear_problem two_milestones 10 0 0)) ->
        at_lmbda c == final_milestone ->
        fst (natural linear_problem two_milestones 10 0 0) = Returned
        /\ exists before,
             snd (natural linear_problem two_milestones 10 0 0)
             = before ++ [c]).
Proof.
  apply (NaturalFacts.milestones_are_hit_in_order Pacopy.newton
           linear_problem two_milestones [1 # 2; 1] 0 eq_refl
           ltac:(repeat constructor) 10 0).
  apply surjective_pairing.
Defined.

Lemma empty_milestones_raise_StopIteration_witness :
  natural linear_problem (with_milestones [] zero_order) 10 0 0
  = (Raised StopIteration,
     [ {| step_index := 0; at_lmbda := 0; at_u := 0 |} ]).
Proof.
  apply (NaturalFacts.empty_milestones_raise_StopIteration Pacopy.newton
           linear_problem (with_milestones [] zero_order) 10 0 0 0 0).
  - reflexivity.
  - reflexivity.
Defined.

End NaturalRuns.

(** ** More on the Newton solver of [pycont/newton.py] *)

Module NewtonMore.
Import Newton.

Section More.
Context {vec : Type} `{VecOps vec}.
Variable norm : vec -> Q.
Variable f : vec -> vec.
Variable jacobian_solver : vec -> vec -> vec.
Variable tol : Q.

Local Abbreviation after := (after norm f jacobian_solver).
Local Abbreviation while_loop := (while_loop norm f jacobian_solver tol).
Local Abbreviation iterate := (iterate norm f jacobian_solver).
Local Abbreviation run := (run norm f jacobian_solver tol).
Local Abbreviation newton := (newton norm f jacobian_solver tol).

(** [nrm] always is the norm of the residual at [u]. *)
Lemma nrm_iterate i u0 :
  nrm (iterate i u0) = norm (f (u (iterate i u0))).
Proof. destruct i; reflexivity. Qed.

(** The solver raises exactly when the residual norm at each of the
    iterates [u_0 .. u_(max_iter-1)] is at least [tol], and then the
    exception carries [max_iter]. *)
Theorem newton_raises_exactly_when u0 max_iter e :
  newton u0 max_iter = Raise e <->
  e = NewtonConvergenceError max_iter
  /\ forall j, (j < max_iter)%nat -> tol <= norm (f (u (iterate j u0))).
Proof.
  rewrite NewtonFacts.newton_raises_iff.
  split; intros [He Hall]; (split; [exact He|]); intros j Hj;
    specialize (Hall j Hj); now rewrite nrm_iterate in *.
Qed.

(** When the solver raises, the exception carries [max_iter], the loop has
    made [max_iter] corrections, and the residual norm was not below [tol]
    at the initial vector nor after any of the first [max_iter - 1]
    corrections. *)
Theorem newton_failure_carries_max_iter u0 max_iter e :
  newton u0 max_iter = Raise e ->
  e = NewtonConvergenceError max_iter
  /\ k (run u0 max_iter) = max_iter
  /\ forall j, (j < max_iter)%nat -> ~ norm (f (u (iterate j u0))) < tol.
Proof.
  intros Hraise. apply newton_raises_exactly_when in Hraise as [-> Hall].
  split; [reflexivity|]. split.
  - assert (Hnrm : forall j, (j < max_iter)%nat ->
                     tol <= nrm (after j (entry norm f u0))).
    { intros j Hj. specialize (Hall j Hj).
      now rewrite <- nrm_iterate in Hall. }
    unfold Newton.run.
    rewrite (NewtonFacts.while_loop_exhausts norm f jacobian_solver tol
               max_iter _ Hnrm).
    now rewrite NewtonFacts.k_after.
  - intros j Hj. apply Qle_not_lt. now apply Hall.
Qed.

(** C1, amended.  A successful call hands back the converged vector alone,
    never a pair: the vector is the first iterate whose residual norm is
    below [tol]; the number of corrections performed, which is exactly the
    index of that iterate (0 when the residual norm of [u0] is already
    below [tol]) and stays below [max_iter], is the final value of the
    local [k] and is not part of the result. *)
Theorem newton_returns_the_vector_alone u0 max_iter v :
  newton u0 max_iter = Return v ->
  (forall a n, v <> PyTuple a n)
  /\ exists i,
       v = PyArray (u (iterate i u0))
       /\ norm (f (u (iterate i u0))) < tol
       /\ (forall j, (j < i)%nat -> ~ norm (f (u (iterate j u0))) < tol)
       /\ k (run u0 max_iter) = i
       /\ (i < max_iter)%nat
       /\ (norm (f u0) < tol -> i = 0%nat).
Proof.
  intros Hret. split.
  - intros a n ->.
    now apply (NewtonFacts.newton_never_returns_a_pair norm f jacobian_solver
                 tol u0 max_iter a n).
  - apply NewtonFacts.newton_returns_iff in Hret.
    destruct Hret as (i & Hi & -> & Hk & Hlt & Hbefore).
    assert (Hnot : forall j, (j < i)%nat ->
                     ~ norm (f (u (iterate j u0))) < tol).
    { intros j Hj. apply Qle_not_lt. rewrite <- nrm_iterate.
      now apply Hbefore. }
    exists i. split; [reflexivity|]. split; [now rewrite <- nrm_iterate|].
    split; [exact Hnot|]. split; [exact Hk|]. split; [exact Hi|].
    intros Hzero. destruct i as [|i]; [reflexivity|].
    now destruct (Hnot 0%nat ltac:(lia)).
Qed.

(** The array a successful call hands back has a residual norm below
    [tol]. *)
Theorem newton_result_is_converged u0 max_iter v :
  newton u0 max_iter = Return (PyArray v) ->
  norm (f v) < tol.
Proof.
  intros Hret. apply NewtonFacts.newton_returns_iff in Hret.
  destruct Hret as (i & _ & [= ->] & _ & Hlt & _).
  now rewrite nrm_iterate in Hlt.
Qed.

(** A call that succeeds within [max_iter] hands back the same array
    under every larger budget. *)
Theorem newton_budget_monotone u0 max_iter max_iter' v :
  (max_iter <= max_iter')%nat ->
  newton u0 max_iter = Return v ->
  newton u0 max_iter' = Return v.
Proof.
  intros Hle Hret. apply NewtonFacts.newton_returns_iff in Hret.
  destruct Hret as (i & Hi & -> & _ & Hlt & Hbefore).
  unfold Newton.newton, Newton.run.
  rewrite (NewtonFacts.while_loop_converges norm f jacobian_solver tol
             max_iter' _ i); [reflexivity | lia | exact Hlt | exact Hbefore].
Qed.

(** With room for at least one loop test, an input whose residual norm is
    already below [tol] comes back unchanged, without any correction. *)
Theorem newton_keeps_a_converged_input u0 max_iter :
  (1 <= max_iter)%nat ->
  norm (f u0) < tol ->
  newton u0 max_iter = Return (PyArray u0)
  /\ k (run u0 max_iter) = 0%nat.
Proof.
  intros Hbudget Hlt.
  destruct max_iter as [|n]; [lia|].
  unfold Newton.newton, Newton.run. simpl.
  destruct (Qlt_le_dec (norm (f u0)) tol) as [_|Hge]; [now split|].
  exfalso. apply (Qlt_irrefl tol). eapply Qle_lt_trans; eassumption.
Qed.

(** The solver is idempotent on its results: called on the array it handed
    back, with the same budget, it hands that array back again. *)
Theorem newton_is_idempotent u0 max_iter v :
  newton u0 max_iter = Return (PyArray v) ->
  newton v max_iter = Return (PyArray v).
Proof.
  intros Hret.
  assert (Hlt : norm (f v) < tol).
  { apply NewtonFacts.newton_returns_iff in Hret.
    destruct Hret as (i & _ & [= ->] & _ & Hlt & _).
    now rewrite nrm_iterate in Hlt. }
  assert (Hbudget : (1 <= max_iter)%nat).
  { apply NewtonFacts.newton_returns_iff in Hret.
    destruct Hret as (i & Hi & _). lia. }
  destruct max_iter as [|n]; [lia|].
  unfold Newton.newton, Newton.run. simpl.
  destruct (Qlt_le_dec (norm (f v)) tol) as [_|Hge]; [reflexivity|].
  exfalso. apply (Qlt_irrefl tol). eapply Qle_lt_trans; eassumption.
Qed.

(** With a tolerance that is not positive and a norm that is never
    negative, every call spends its whole budget and raises. *)
Theorem newton_never_meets_a_nonpositive_tol u0 max_iter :
  tol <= 0 ->
  (forall v, 0 <= norm v) ->
  newton u0 max_iter = Raise (NewtonConvergenceError max_iter)
  /\ k (run u0 max_iter) = max_iter.
Proof.
  intros Htol Hnorm.
  assert (Hall : forall j, (j < max_iter)%nat ->
                   tol <= nrm (after j (entry norm f u0))).
  { intros j _. change (after j (entry norm f u0)) with (iterate j u0).
    rewrite nrm_iterate. specialize (Hnorm (f (u (iterate j u0)))). lra. }
  unfold Newton.newton, Newton.run.
  rewrite (NewtonFacts.while_loop_exhausts norm f jacobian_solver tol
             max_iter _ Hall).
  rewrite NewtonFacts.is_converged_after, NewtonFacts.k_after.
  split; reflexivity.
Qed.

End More.

Lemma newton_failure_carries_max_iter_witness :
  NewtonConvergenceError 3 = NewtonConvergenceError 3
  /\ k (run Qabs (fun v => Natural.f Examples.gap_problem v (1 # 2))
          Examples.exact_solve (1 # 10) 0 3) = 3%nat
  /\ forall j, (j < 3)%nat ->
       ~ Qabs (Natural.f Examples.gap_problem
                 (u (iterate Qabs
                       (fun v => Natural.f Examples.gap_problem v (1 # 2))
                       Examples.exact_solve j 0))
                 (1 # 2)) < 1 # 10.
Proof.
  apply (newton_failure_carries_max_iter Qabs
           (fun v => Natural.f Examples.gap_problem v (1 # 2))
           Examples.exact_solve (1 # 10) 0 3 (NewtonConvergenceError 3)).
  vm_compute. reflexivity.
Defined.

Lemma newton_returns_the_vector_alone_witness :
  (forall a n, PyArray 0 <> PyTuple a n)
  /\ exists i,
       PyArray 0
       = PyArray (u (iterate Qabs Examples.identity_residual
                       Examples.exact_solve i 1))
       /\ Qabs (Examples.identity_residual
                  (u (iterate Qabs Examples.identity_residual
                        Examples.exact_solve i 1))) < 1 # 10
       /\ (forall j, (j < i)%nat ->
             ~ Qabs (Examples.identity_residual
                       (u (iterate Qabs Examples.identity_residual
                             Examples.exact_solve j 1))) < 1 # 10)
       /\ k (run Qabs Examples.identity_residual Examples.exact_solve
               (1 # 10) 1 20) = i
       /\ (i < 20)%nat
       /\ (Qabs (Examples.identity_residual 1) < 1 # 10 -> i = 0%nat).
Proof.
  apply (newton_returns_the_vector_alone Qabs Examples.identity_residual
           Examples.exact_solve (1 # 10) 1 20 (PyArray 0)).
  vm_compute. reflexivity.
Defined.

Lemma newton_result_is_converged_witness :
  Qabs (Examples.identity_residual 0) < 1 # 10.
Proof.
  apply (newton_result_is_converged Qabs Examples.identity_residual
           Examples.exact_solve (1 # 10) 1 20 0).
  vm_compute. reflexivity.
Defined.

Lemma newton_budget_monotone_witness :
  newton Qabs Examples.identity_residual Examples.exact_solve (1 # 10) 1 20
  = Return (PyArray 0).
Proof.
  apply (newton_budget_monotone Qabs Examples.identity_residual
           Examples.exact_solve (1 # 10) 1 2 20 (PyArray 0)).
  - lia.
  - vm_compute. reflexivity.
Defined.

Lemma newton_keeps_a_converged_input_witness :
  newton Qabs Examples.identity_residual Examples.exact_solve
    (1 # 10) (1 # 100) 1
  = Return (PyArray (1 # 100))
  /\ k (run Qabs Examples.identity_residual Examples.exact_solve
          (1 # 10) (1 # 100) 1) = 0%nat.
Proof.
  apply (newton_keeps_a_converged_input Qabs Examples.identity_residual
           Examples.exact_solve (1 # 10) (1 # 100) 1).
  - lia.
  - vm_compute. reflexivity.
Defined.

Lemma newton_is_idempotent_witness :
  newton Qabs Examples.identity_residual Examples.exact_solve (1 # 10) 0 20
  = Return (PyArray 0).
Proof.
  apply (newton_is_idempotent Qabs Examples.identity_residual
           Examples.exact_solve (1 # 10) 1 20 0).
  vm_compute. reflexivity.
Defined.

Lemma newton_never_meets_a_nonpositive_tol_witness :
  newton Qabs Examples.identity_residual Examples.exact_solve 0 0 3
  = Raise (NewtonConvergenceError 3)
  /\ k (run Qabs Examples.identity_residual Examples.exact_solve 0 0 3)
     = 3%nat.
Proof.
  apply (newton_never_meets_a_nonpositive_tol Qabs
           Examples.identity_residual Examples.exact_solve 0 0 3).
  - vm_compute. discriminate.
  - apply Qabs_nonneg.
Defined.

End NewtonMore.

(** ** More on [newton] and the store *)

Module NewtonHeapMore.

Section More.
Context {vec : Type} `{VecOps vec}.
Variable norm : vec -> Q.
Variable f : vec -> vec.
Variable jacobian_solver : vec -> vec -> vec.
Variable tol : Q.

(** The array a successful call hands back is a new one: its reference
    was not in use before the call, so the result shares its storage with
    no array the caller holds, [u0] included. *)
Theorem newton_result_is_a_new_array
    (h h' : gmap positive vec) (u0 u : positive) (a0 : vec) (max_iter : nat) :
  h !! u0 = Some a0 ->
  NewtonHeap.newton norm f jacobian_solver tol u0 max_iter h
    = Some (Return u, h') ->
  h !! u = None.
Proof.
  intros Hu0 Hrun.
  destruct (NewtonHeapFacts.copy_spec u0 h a0 Hu0) as (u1 & Hcopy & Hnew & _).
  destruct (NewtonHeapFacts.while_loop_refines norm f jacobian_solver tol
              max_iter u1 (<[u1 := a0]> h) (Newton.entry norm f a0))
    as (h1 & Hloop & _ & _).
  { apply lookup_insert_eq. }
  { reflexivity. }
  simpl in Hloop. revert Hrun.
  unfold NewtonHeap.newton. rewrite Hcopy. simpl.
  rewrite lookup_insert_eq. simpl. rewrite Hloop. simpl.
  destruct (Newton.is_converged _); simpl; [|discriminate].
  now intros [= <- _].
Qed.

End More.

Lemma newton_result_is_a_new_array_witness :
  (<[1%positive := 1]> (<[2%positive := 7]> ∅) : gmap positive Q)
    !! 3%positive = None.
Proof.
  eapply (newton_result_is_a_new_array Qabs Examples.identity_residual
            Examples.exact_solve (1 # 10)
            (<[1%positive := 1]> (<[2%positive := 7]> ∅)) _
            1%positive 3%positive 1 20).
  - reflexivity.
  - vm_compute. reflexivity.
Defined.

End NewtonHeapMore.

(** ** More on the continuation driver *)

Module NaturalMore.
Import Natural NaturalFacts.

Section More.
Context {vec : Type} `{VecOps vec}.
Variable newton :
  (vec -> vec) -> (vec -> vec -> vec) -> (vec -> Q) ->
  vec -> Q -> nat -> outcome (vec * nat).
Variable problem : Problem vec.
Variable opts : Options.

Local Abbreviation call := (@call vec).
Local Abbreviation state := (@state vec).
Local Abbreviation corrector := (corrector newton problem opts).
Local Abbreviation start := (start newton problem opts).
Local Abbreviation guess := (guess problem opts).
Local Abbreviation body := (body newton problem opts).
Local Abbreviation natural := (natural newton problem opts).
Local Abbreviation loop_head := (loop_head newton problem opts).

(** The log a pass leaves: the one it found, or that with the accepted
    trial added, which takes a step index within [max_steps]. *)
Lemma pass_appends (s : state) :
  let log := match body s with
             | Continue s' | Break s' => calls s'
             | Throw _ log => log
             end in
  log = calls s
  \/ (exceeds (k s) (max_steps opts) = false
      /\ exists u1 n,
           corrector (predictor s) (guess s (predictor s)) = Return (u1, n)
           /\ log = calls s ++ [ {| step_index := k s;
                                    at_lmbda := predictor s;
                                    at_u := u1 |} ]).
Proof.
  open_body s; simpl; try (now left); right; split; eauto.
Qed.

(** A pass that comes back to the loop head either rejected its trial, or
    accepted it and counted one step. *)
Lemma pass_counts (s s' : state) :
  body s = Continue s' ->
  (k s' = k s /\ calls s' = calls s)
  \/ (exceeds (k s) (max_steps opts) = false
      /\ k s' = S (k s)
      /\ exists u1,
           calls s' = calls s ++ [ {| step_index := k s;
                                      at_lmbda := predictor s;
                                      at_u := u1 |} ]).
Proof.
  open_body s; intros Hbody; try discriminate; injection Hbody as <-; simpl;
    first [ now (left; split)
          | right; split; [reflexivity|]; split; [reflexivity|];
            eexists; reflexivity ].
Qed.

(** Induction over the callback log of a run, along a loop invariant. *)
Lemma run_log_ind (I : state -> Prop) (P : list call -> Prop) u0 lambda0 :
  (forall e, corrector lambda0 u0 = Raise e -> P []) ->
  (forall u1 n, corrector lambda0 u0 = Return (u1, n) ->
     P [ {| step_index := 0; at_lmbda := lambda0; at_u := u1 |} ]) ->
  (forall s0, start u0 lambda0 = Continue s0 -> I s0) ->
  (forall s s', I s -> body s = Continue s' -> I s') ->
  (forall s, I s -> P (calls s)) ->
  (forall s u1 n,
     I s -> exceeds (k s) (max_steps opts) = false ->
     corrector (predictor s) (guess s (predictor s)) = Return (u1, n) ->
     P (calls s ++ [ {| step_index := k s; at_lmbda := predictor s;
                        at_u := u1 |} ])) ->
  forall fuel, P (snd (natural fuel u0 lambda0)).
Proof.
  intros Hnil Hfirst Hstart Hkeep Hhead Happ fuel.
  destruct (natural fuel u0 lambda0) as [st log] eqn:Hrun. simpl.
  apply natural_ends in Hrun.
  destruct Hrun as [(e & Hs & _)|(s & Hh & Hend)].
  - revert Hs. unfold Natural.start.
    destruct (corrector _ _) as [[u1 n]|e'] eqn:Hcorr;
      [|intros [= _ <-]; now apply (Hnil e')].
    destruct (milestones opts) as [[|m rest]|]; try discriminate.
    intros [= _ <-]. eapply Hfirst. reflexivity.
  - assert (Hs : I s).
    { clear Hend. revert s Hh.
      now apply (loop_head_invariant newton problem opts I). }
    pose proof (pass_appends s) as Hpass.
    assert (Hcases :
      log = calls s
      \/ (exceeds (k s) (max_steps opts) = false
          /\ exists u1 n,
               corrector (predictor s) (guess s (predictor s))
                 = Return (u1, n)
               /\ log = calls s ++ [ {| step_index := k s;
                                        at_lmbda := predictor s;
                                        at_u := u1 |} ])).
    { destruct Hend as [[_ ->]|[(s' & Hbody & _ & ->)|(e & Hbody & _)]];
        [now left | |]; rewrite Hbody in Hpass; exact Hpass. }
    destruct Hcases as [->|(Hmax & u1 & n & Hcorr & ->)];
      [now apply Hhead | now apply (Happ s u1 n)].
Qed.

(** *** Step indices *)

(** In every run the callback is invoked with the step indices
    0, 1, 2, ... in this order, without a gap and without a repetition,
    whatever trials were rejected in between. *)
Theorem step_indices_count_up fuel u0 lambda0 :
  map step_index (snd (natural fuel u0 lambda0))
  = seq 0 (length (snd (natural fuel u0 lambda0))).
Proof.
  apply (run_log_ind
           (fun s => k s = length (calls s)
                     /\ map step_index (calls s) = seq 0 (length (calls s)))
           (fun log => map step_index log = seq 0 (length log))).
  - reflexivity.
  - reflexivity.
  - intros s0. unfold Natural.start.
    destruct (corrector _ _) as [[u1 n]|e]; [|discriminate].
    destruct (milestones opts) as [[|m rest]|]; try discriminate;
      intros [= <-]; split; reflexivity.
  - intros s s' [Hk Hlog] Hbody.
    destruct (pass_counts s s' Hbody) as [[-> ->]|(_ & -> & u1 & ->)];
      [now split|].
    rewrite map_app, length_app, Hlog. simpl.
    rewrite Nat.add_1_r, seq_S, Hk. now split.
  - now intros s [_ Hlog].
  - intros s u1 n [Hk Hlog] _ _.
    rewrite map_app, length_app, Hlog. simpl.
    now rewrite Nat.add_1_r, seq_S, Hk.
Qed.

(** With [max_steps = m] the callback is invoked at most [m + 1] times:
    for the initial point and for at most [m] continuation steps. *)
Theorem callbacks_within_max_steps fuel u0 lambda0 m :
  max_steps opts = Some m ->
  (length (snd (natural fuel u0 lambda0)) <= S m)%nat.
Proof.
  intros Hm.
  apply (run_log_ind
           (fun s => k s = length (calls s)
                     /\ (length (calls s) <= S m)%nat)
           (fun log => (length log <= S m)%nat)).
  - intros. simpl. lia.
  - intros. simpl. lia.
  - intros s0. unfold Natural.start.
    destruct (corrector _ _) as [[u1 n]|e]; [|discriminate].
    destruct (milestones opts) as [[|m' rest]|]; try discriminate;
      intros [= <-]; simpl; (split; [reflexivity | lia]).
  - intros s s' [Hk Hlen] Hbody.
    destruct (pass_counts s s' Hbody) as [[-> ->]|(Hmax & -> & u1 & ->)];
      [now split|].
    rewrite Hm in Hmax. simpl in Hmax. apply Nat.ltb_ge in Hmax.
    rewrite length_app. simpl. lia.
  - now intros s [_ Hlen].
  - intros s u1 n [Hk Hlen] Hmax _.
    rewrite Hm in Hmax. simpl in Hmax. apply Nat.ltb_ge in Hmax.
    rewrite length_app. simpl. lia.
Qed.

(** *** What the callback is given *)

(** Every callback invocation [(k, lmbda, u)] is made with a vector that
    the corrector returned for exactly that parameter value: the driver
    never reports a predicted guess, a rejected trial, or a vector together
    with a parameter value it was not solved for. *)
Theorem callbacks_come_from_the_corrector fuel u0 lambda0 :
  Forall (fun c => exists guess0 n,
                     corrector (at_lmbda c) guess0 = Return (at_u c, n))
         (snd (natural fuel u0 lambda0)).
Proof.
  apply (run_log_ind
           (fun s => Forall (fun c => exists guess0 n,
                               corrector (at_lmbda c) guess0
                               = Return (at_u c, n)) (calls s))
           (fun log => Forall (fun c => exists guess0 n,
                                 corrector (at_lmbda c) guess0
                                 = Return (at_u c, n)) log)).
  - constructor.
  - intros u1 n Hcorr. repeat constructor. simpl. eauto.
  - intros s0. unfold Natural.start.
    destruct (corrector _ _) as [[u1 n]|e] eqn:Hcorr; [|discriminate].
    destruct (milestones opts) as [[|m rest]|]; try discriminate;
      intros [= <-]; repeat constructor; simpl; eauto.
  - intros s s' Hs Hbody. pose proof (pass_appends s) as Hpass.
    rewrite Hbody in Hpass. simpl in Hpass.
    destruct Hpass as [->|(_ & u1 & n & Hcorr & ->)]; [exact Hs|].
    apply Forall_app. split; [exact Hs|]. repeat constructor. simpl. eauto.
  - now intros s Hs.
  - intros s u1 n Hs _ Hcorr.
    apply Forall_app. split; [exact Hs|]. repeat constructor. simpl. eauto.
Qed.

(** The driver makes no callback exactly when the initial solve fails, and
    then it ends with the exception of that solve; otherwise its first
    callback is [(0, lambda0, u)] with the vector the initial solve
    returned from [u0]. *)
Theorem first_callback_is_the_initial_point fuel u0 lambda0 :
  match corrector lambda0 u0 with
  | Raise e => natural fuel u0 lambda0 = (Raised e, [])
  | Return (u1, _) =>
      exists later,
        snd (natural fuel u0 lambda0)
        = {| step_index := 0; at_lmbda := lambda0; at_u := u1 |} :: later
  end.
Proof.
  destruct (corrector lambda0 u0) as [[u1 n]|e] eqn:Hcorr.
  - apply (run_log_ind
             (fun s => exists later,
                  calls s = {| step_index := 0; at_lmbda := lambda0;
                               at_u := u1 |} :: later)
             (fun log => exists later,
                  log = {| step_index := 0; at_lmbda := lambda0;
                           at_u := u1 |} :: later)).
    + intros e He. congruence.
    + intros u1' n' Hfirst. rewrite Hcorr in Hfirst.
      injection Hfirst as <- _. eauto.
    + intros s0. unfold Natural.start. rewrite Hcorr.
      destruct (milestones opts) as [[|m rest]|]; try discriminate;
        intros [= <-]; simpl; eauto.
    + intros s s' [later Hs] Hbody.
      destruct (pass_counts s s' Hbody) as [[_ ->]|(_ & _ & u2 & ->)];
        [eauto|]. rewrite Hs. simpl. eauto.
    + now intros s Hs.
    + intros s u2 n2 [later ->] _ _. simpl. eauto.
  - unfold Natural.natural, Natural.start. now rewrite Hcorr.
Qed.

(** *** How a run can end *)

Lemma start_k u0 lambda0 s0 :
  start u0 lambda0 = Continue s0 -> k s0 = 1%nat.
Proof.
  unfold Natural.start.
  destruct (corrector _ _) as [[u1 n]|e]; [|discriminate].
  destruct (milestones opts) as [[|m rest]|]; try discriminate;
    intros [= <-]; reflexivity.
Qed.

Lemma no_milestones_pending u0 lambda0 s :
  milestones opts = None -> loop_head u0 lambda0 s -> pending s = None.
Proof.
  intros Hms. revert s.
  apply (loop_head_invariant newton problem opts (fun s => pending s = None)).
  - intros s0. unfold Natural.start.
    destruct (corrector _ _) as [[u1 n]|e]; [|discriminate].
    rewrite Hms. now intros [= <-].
  - intros s s' Hnone. open_body s; intros Hbody; try discriminate;
      injection Hbody as <-; simpl; congruence.
Qed.

(** With the defaults [max_steps = inf] and [milestones = None] no run of
    the driver returns: a run can only go on, or end by an exception. *)
Theorem never_returns_without_a_bound fuel u0 lambda0 :
  max_steps opts = None ->
  milestones opts = None ->
  fst (natural fuel u0 lambda0) <> Returned.
Proof.
  intros Hsteps Hms.
  destruct (natural fuel u0 lambda0) as [st log] eqn:Hrun. simpl.
  apply natural_ends in Hrun.
  destruct Hrun as [(e & _ & ->)|(s & Hhead & Hend)]; [discriminate|].
  apply (no_milestones_pending _ _ _ Hms) in Hhead.
  destruct Hend as [[-> _]|[(s' & Hbody & _)|(e & _ & ->)]];
    try discriminate.
  exfalso. revert Hbody. unfold Natural.body, Natural.grow.
  rewrite Hsteps, Hhead. simpl.
  destruct (Natural.corrector _ _ _ _ _) as [[u1 n]|[n| |]];
    try discriminate.
  destruct (Z.eqb _ _); discriminate.
Qed.

(** When the corrector never raises, a run with [max_steps = m] is over
    after at most [m + 1] passes through the loop. *)
Theorem ends_within_max_steps u0 lambda0 m :
  max_steps opts = Some m ->
  (forall l guess0 e, corrector l guess0 <> Raise e) ->
  fst (natural (S m) u0 lambda0) <> OutOfFuel.
Proof.
  intros Hm Hnever.
  assert (Hloop : forall fuel s,
            (1 <= fuel)%nat -> (m + 2 <= k s + fuel)%nat ->
            fst (loop newton problem opts fuel s) <> OutOfFuel).
  { induction fuel as [|fuel IH]; intros s Hfuel Hk; [lia|].
    simpl. destruct (body s) as [s'| |] eqn:Hbody; try discriminate.
    revert Hbody. open_body s; intros Hbody; try discriminate;
      try (now destruct (Hnever _ _ _ Hcorr));
      injection Hbody as <-;
      rewrite Hm in Hmax; simpl in Hmax; apply Nat.ltb_ge in Hmax;
      (apply IH; simpl; lia). }
  unfold Natural.natural.
  destruct (start u0 lambda0) as [s0| |] eqn:Hstart; try discriminate.
  apply Hloop; [lia|]. rewrite (start_k _ _ _ Hstart). lia.
Qed.

(** With [max_newton_steps = 1] and no milestones the driver never gets
    past its first continuation step: the step-size rule divides by
    [max_newton_steps - 1], so the callback is invoked at most twice. *)
Theorem budget_one_stops_after_one_step fuel u0 lambda0 :
  max_newton_steps opts = 1%nat ->
  milestones opts = None ->
  (length (snd (natural fuel u0 lambda0)) <= 2)%nat.
Proof.
  intros Hbudget Hms.
  apply (run_log_ind
           (fun s => length (calls s) = 1%nat /\ pending s = None)
           (fun log => (length log <= 2)%nat)).
  - intros. simpl. lia.
  - intros. simpl. lia.
  - intros s0. unfold Natural.start.
    destruct (corrector _ _) as [[u1 n]|e]; [|discriminate].
    rewrite Hms. now intros [= <-].
  - intros s s' [Hlen Hnone]. open_body s; intros Hbody; try discriminate;
      try congruence.
    + rewrite Hbudget in Hdiv. discriminate.
    + injection Hbody as <-. simpl. now split.
  - intros s [Hlen _]. lia.
  - intros s u1 n [Hlen _] _ _. rewrite length_app. simpl. lia.
Qed.

(** *** The final milestone *)

(** With milestones that are strictly increasing and above [lambda0], no
    callback ever receives a parameter value above the final milestone. *)
Theorem never_beyond_the_final_milestone
    fuel u0 lambda0 ms earlier final_milestone :
  milestones opts = Some ms ->
  StronglySorted Qlt (lambda0 :: ms) ->
  ms = earlier ++ [final_milestone] ->
  Forall (fun c => at_lmbda c <= final_milestone)
         (snd (natural fuel u0 lambda0)).
Proof.
  intros Hms Hsorted Hfinal.
  assert (Hpending : forall passed m rest,
            ms = passed ++ m :: rest -> m <= final_milestone).
  { intros passed m rest Hsplit.
    assert (Hs : StronglySorted Qlt ms)
      by (now apply StronglySorted_inv in Hsorted).
    rewrite Hsplit in Hs.
    pose proof (le_last_milestone passed rest m 0 Hs) as Hle.
    now rewrite <- Hsplit, Hfinal, List.last_last in Hle. }
  apply (run_log_ind (on_track ms)
           (fun log => Forall (fun c => at_lmbda c <= final_milestone) log)).
  - constructor.
  - intros u1 n _. repeat constructor. simpl.
    apply StronglySorted_inv in Hsorted as [_ Hall].
    rewrite List.Forall_forall in Hall.
    assert (lambda0 < final_milestone)
      by (apply Hall; rewrite Hfinal; apply in_elt).
    lra.
  - intros s0. now apply (on_track_start newton problem opts ms lambda0).
  - intros s s'. now apply (on_track_next newton problem opts ms lambda0).
  - intros s (passed & m & rest & Hsplit & _ & Hbelow & _).
    specialize (Hpending _ _ _ Hsplit).
    apply List.Forall_forall. intros c Hc. specialize (Hbelow c Hc). lra.
  - intros s u1 n (passed & m & rest & Hsplit & Hpend & Hbelow & _) _ _.
    specialize (Hpending _ _ _ Hsplit).
    pose proof (predictor_clamped s m rest Hpend) as Hclamp.
    apply Forall_app. split.
    + apply List.Forall_forall. intros c Hc. specialize (Hbelow c Hc). lra.
    + repeat constructor. simpl. lra.
Qed.

End More.
End NaturalMore.

(** ** More runs of the driver on concrete problems *)

Module NaturalMoreRuns.
Import Natural Examples.

(** On [linear_problem] one correction reaches the root, so the corrector
    of a driver with a positive tolerance and a budget of at least one
    iteration never raises. *)
Lemma linear_corrector_never_raises opts l guess0 e :
  0 < newton_tol opts ->
  (1 <= max_newton_steps opts)%nat ->
  corrector linear_problem opts l guess0 <> Raise e.
Proof.
  intros Htol Hbudget.
  unfold corrector, Natural.corrector, Pacopy.newton.
  destruct (max_newton_steps opts) as [|b]; [lia|].
  simpl. destruct (Qlt_le_dec _ _) as [_|_]; [discriminate|].
  assert (Hroot : (guess0 + - (guess0 - l) - l) * (guess0 + - (guess0 - l) - l)
                  == 0) by ring.
  destruct b; simpl;
    (destruct (Qlt_le_dec _ _) as [_|Hge]; [discriminate|]);
    exfalso; rewrite Hroot in Hge; lra.
Qed.

Lemma callbacks_within_max_steps_witness :
  (length (snd (natural linear_problem (with_max_steps 3 zero_order) 10 0 0))
   <= 4)%nat.
Proof.
  apply (NaturalMore.callbacks_within_max_steps Pacopy.newton linear_problem
           (with_max_steps 3 zero_order) 10 0 0 3).
  reflexivity.
Defined.

Lemma never_returns_without_a_bound_witness :
  fst (natural linear_problem zero_order 10 0 0) <> Returned.
Proof.
  apply (NaturalMore.never_returns_without_a_bound Pacopy.newton
           linear_problem zero_order 10 0 0).
  - reflexivity.
  - reflexivity.
Defined.

Lemma ends_within_max_steps_witness :
  fst (natural linear_problem (with_max_steps 3 zero_order) 4 0 0)
  <> OutOfFuel.
Proof.
  apply (NaturalMore.ends_within_max_steps Pacopy.newton linear_problem
           (with_max_steps 3 zero_order) 0 0 3).
  - reflexivity.
  - intros l guess0 e. apply linear_corrector_never_raises.
    + reflexivity.
    + simpl. lia.
Defined.

Lemma budget_one_stops_after_one_step_witness :
  (length (snd (natural linear_problem
                  (with_max_newton_steps 1 zero_order) 10 0 0)) <= 2)%nat.
Proof.
  apply (NaturalMore.budget_one_stops_after_one_step Pacopy.newton
           linear_problem (with_max_newton_steps 1 zero_order) 10 0 0).
  - reflexivity.
  - reflexivity.
Defined.

Lemma never_beyond_the_final_milestone_witness :
  Forall (fun c => at_lmbda c <= 1)
         (snd (natural linear_problem two_milestones 10 0 0)).
Proof.
  apply (NaturalMore.never_beyond_the_final_milestone Pacopy.newton
           linear_problem two_milestones 10 0 0 [1 # 2; 1] [1 # 2] 1).
  - reflexivity.
  - repeat constructor.
  - reflexivity.
Defined.

End NaturalMoreRuns.
